(** * accessories.py: tools for iterables and collections

    A shallow embedding of [accessories.py] and the properties of its
    functions.  Generators are modelled by the list of the values they
    yield; a generator whose body raises before its first [yield] is
    modelled by the exception (it surfaces at the first [next]). *)

From Stdlib Require Import ZArith Ascii String Lia.
From stdpp Require Import gmap strings list sorting.

Local Open Scope Z_scope.

(** ** Python values the functions rely on *)

(** Text is a sequence of characters; [pystr] reads a literal. *)
Abbreviation str := (list ascii).

Definition pystr (s : string) : str := list_ascii_of_string s.

(** The exceptions the modelled code can raise. *)
Inductive exn : Type :=
  | ValueError
  | StopIteration
  | KeyError.

Inductive result (A : Type) : Type :=
  | Ok (a : A)
  | Raise (e : exn).

Arguments Ok {A} a.
Arguments Raise {A} e.

(** Objects passed as flags ([assign], [anterior]). *)
Inductive pyval : Type :=
  | PyNone
  | PyBool (b : bool)
  | PyInt (n : Z)
  | PyStr (s : str).

(** [v is True]: identity with the singleton [True]. *)
Definition is_True (v : pyval) : bool :=
  match v with
  | PyBool true => true
  | _ => false
  end.

(** [bool(v)]. *)
Definition truthy (v : pyval) : bool :=
  match v with
  | PyNone => false
  | PyBool b => b
  | PyInt n => negb (n =? 0)
  | PyStr s => negb (bool_decide (s = []))
  end.

(** Slice bounds are normalised as for [seq[lo:hi]]: a negative bound counts
    from the end, and every bound is clipped to [0 .. len]. *)
Definition clamp_index (len i : Z) : Z :=
  let i' := if i <? 0 then i + len else i in
  if i' <? 0 then 0 else if len <? i' then len else i'.

Definition py_slice {A : Type} (l : list A) (lo hi : option Z) : list A :=
  let len := Z.of_nat (length l) in
  let a := from_option (clamp_index len) 0 lo in
  let b := from_option (clamp_index len) len hi in
  take (Z.to_nat (b - a)) (drop (Z.to_nat a) l).

(** [len(range(start, stop, step))] for a non-zero step. *)
Definition range_length (start stop step : Z) : Z :=
  if 0 <? step then
    if start <? stop then (stop - start - 1) / step + 1 else 0
  else
    if stop <? start then (start - stop - 1) / (- step) + 1 else 0.

(** [range(start, stop, step)]: a zero step is rejected, the k-th element
    is [start + k * step]. *)
Definition py_range (start stop step : Z) : result (list Z) :=
  if step =? 0 then Raise ValueError
  else Ok ((λ k : nat, start + Z.of_nat k * step)
             <$> seq 0 (Z.to_nat (range_length start stop step))).

(** [entries[k]] for the entries of a [dict], or of keyword arguments, in
    insertion order. *)
Fixpoint items_get {K V : Type} `{EqDecision K} (entries : list (K * V)) (k : K) : option V :=
  match entries with
  | [] => None
  | (k', v) :: rest => if decide (k' = k) then Some v else items_get rest k
  end.

(** ** CustomDict *)

(** Dictionary keys: text or integers.  Keyword arguments always have text
    names. *)
Abbreviation key := (string + Z)%type.

(** One round of the loop of [set]: [if key not in self: self[key] = value]. *)
Definition set_item {V : Type} (self : gmap key V) (kv : string * V) : gmap key V :=
  match self !! inl kv.1 with
  | None => <[inl kv.1 := kv.2]> self
  | Some _ => self
  end.

(** [CustomDict.set(self, assign, **kwargs)]: the mapping after the call and
    the returned object ([self] when [assign is True], otherwise [None]). *)
Definition CustomDict_set {V : Type} (self : gmap key V) (assign : pyval)
    (kwargs : list (string * V)) : gmap key V * option (gmap key V) :=
  let self' := foldl set_item self kwargs in
  (self', if is_True assign then Some self' else None).

(** ** chunks *)

(** [for i in range(0, len(iterable), size): yield iterable[i:i + size]] *)
Definition chunks {A : Type} (iterable : list A) (size : Z) : result (list (list A)) :=
  match py_range 0 (Z.of_nat (length iterable)) size with
  | Raise e => Raise e
  | Ok starts => Ok ((λ i, py_slice iterable (Some i) (Some (i + size))) <$> starts)
  end.

(** ** flatten *)

(** The elements [flatten] tells apart: [isinstance(item, (list, tuple))]
    holds for lists and tuples, anything else is yielded as it is. *)
Inductive seqkind : Type :=
  | KList
  | KTuple.

#[local] Unset Elimination Schemes.

(** An element of a nested sequence: a scalar, or a list or tuple of
    elements. *)
Inductive item (A : Type) : Type :=
  | Scalar (a : A)
  | Seq (kind : seqkind) (items : list (item A)).

Arguments Scalar {A} a.
Arguments Seq {A} kind items.

#[local] Set Elimination Schemes.

(** What the loop body of [flatten] yields for one [item]: the values of
    [flatten(item)] for a list or tuple, the item itself otherwise. *)
Fixpoint flatten_item {A : Type} (x : item A) : list A :=
  match x with
  | Scalar a => [a]
  | Seq _ items => flat_map flatten_item items
  end.

(** [for item in iterable: ...] *)
Definition flatten {A : Type} (iterable : list (item A)) : list A :=
  flat_map flatten_item iterable.

(** ** nth *)

Section iterators.
(** An iterator is a state together with [__next__], which returns an
    element and the state after it, or nothing once exhausted. *)
Context {A St : Type} (next : St → option (A * St)).

(** [islice] skipping [n] elements: the state reached, and whether the
    iterator still had them all. *)
Fixpoint consume (n : nat) (it : St) : St * bool :=
  match n with
  | O => (it, true)
  | S n' =>
      match next it with
      | None => (it, false)
      | Some (_, it') => consume n' it'
      end
  end.

(** [islice(iterable, start, stop)] accepts its bounds only between [0] and
    [sys.maxsize], the largest index of the platform, which is a parameter
    here. *)
Definition islice_bounds_ok (maxsize start stop : Z) : bool :=
  (0 <=? start) && (start <=? maxsize) && (0 <=? stop) && (stop <=? maxsize).

(** [next(islice(iterable, index, index + 1))]: the outcome and the state
    the underlying iterator is left in.  When [islice] rejects the bounds it
    raises [ValueError] before the iterator is touched. *)
Definition nth (maxsize : Z) (it : St) (index : Z) : result A * St :=
  if islice_bounds_ok maxsize index (index + 1) then
    let '(it1, complete) := consume (Z.to_nat index) it in
    if complete then
      match next it1 with
      | Some (x, it2) => (Ok x, it2)
      | None => (Raise StopIteration, it1)
      end
    else (Raise StopIteration, it1)
  else (Raise ValueError, it).

(** [yields it xs it']: calling [__next__] repeatedly from [it] returns
    the elements [xs] and leaves the iterator in [it']. *)
Inductive yields : St → list A → St → Prop :=
  | yields_nil it : yields it [] it
  | yields_cons it x it' xs it'' :
      next it = Some (x, it') → yields it' xs it'' → yields it (x :: xs) it''.
End iterators.

(** [sys.maxsize] of a 64-bit build of the interpreter. *)
Definition maxsize_64bit : Z := 2 ^ 63 - 1.

(** [itertools.count(n)]: the iterator over [n], [n + 1], ..., which never
    runs out. *)
Definition count_next (n : Z) : option (Z * Z) := Some (n, n + 1).

(** [iter(l)] for a list: the state is what is left to hand out. *)
Definition list_next {A : Type} (l : list A) : option (A * list A) :=
  match l with
  | [] => None
  | x :: rest => Some (x, rest)
  end.

(** ** fetch *)

#[local] Unset Elimination Schemes.

(** JSON objects as [json.load] builds them; a [dict] keeps its entries in
    insertion order. *)
Inductive json : Type :=
  | JNull
  | JBool (b : bool)
  | JNum (n : Z)
  | JStr (s : string)
  | JList (items : list json)
  | JDict (entries : list (string * json)).

#[local] Set Elimination Schemes.

(** [isinstance(value, (dict, list))] *)
Definition is_container (j : json) : bool :=
  match j with
  | JList _ | JDict _ => true
  | _ => false
  end.

(** In the [dict] branch [iterable[key]] is the [value] of the entry being
    visited (see [fetch_getitem_entry]), which is what is yielded here. *)
Fixpoint fetch (iterable : json) (token : string) : list json :=
  match iterable with
  | JDict entries =>
      flat_map (λ '(key, value),
                  (if decide (key = token) then [value] else [])
                  ++ (if is_container value then fetch value token else []))
               entries
  | JList items =>
      flat_map (λ item, if is_container item then fetch item token else []) items
  | _ => []
  end.

(** Every entry (key and value) of every [dict] of a JSON object, at any
    depth: the entries of a [dict] in their order, each followed by the
    entries found inside its value. *)
Fixpoint all_entries (j : json) : list (string * json) :=
  match j with
  | JDict entries => flat_map (λ '(key, value), (key, value) :: all_entries value) entries
  | JList items => flat_map all_entries items
  | _ => []
  end.

(** ** Positions in nested data *)

(** A position is the list of indices leading from the root to a node.
    [path_lt] is the depth-first, left-to-right order on positions: a node
    comes before the nodes below it, and whatever sits at or below an
    earlier sibling comes before whatever sits at or below a later one. *)
Inductive path_lt : list nat → list nat → Prop :=
  | path_lt_below i p : path_lt [] (i :: p)
  | path_lt_sibling i j p q : (i < j)%nat → path_lt (i :: p) (j :: q)
  | path_lt_inside i p q : path_lt p q → path_lt (i :: p) (i :: q).

(** The positions [f] selects in each child, numbering the children from
    [i] on. *)
Fixpoint paths_from {X : Type} (f : X → list (list nat)) (i : nat) (l : list X)
    : list (list nat) :=
  match l with
  | [] => []
  | y :: rest => (cons i <$> f y) ++ paths_from f (S i) rest
  end.

(** The node of a nested sequence at a position. *)
Fixpoint item_at {A : Type} (x : item A) (p : list nat) : option (item A) :=
  match p with
  | [] => Some x
  | i :: p' =>
      match x with
      | Scalar _ => None
      | Seq _ items =>
          match items !! i with
          | Some y => item_at y p'
          | None => None
          end
      end
  end.

(** The positions of the scalar leaves. *)
Fixpoint leaf_paths {A : Type} (x : item A) : list (list nat) :=
  match x with
  | Scalar _ => [[]]
  | Seq _ items => paths_from leaf_paths 0 items
  end.

(** The node of a JSON object at a position, with the key it is held
    under ([held] at the root, nothing for an element of a list). *)
Fixpoint entry_at (held : option string) (j : json) (p : list nat)
    : option (option string * json) :=
  match p with
  | [] => Some (held, j)
  | i :: p' =>
      match j with
      | JList items =>
          match items !! i with
          | Some y => entry_at None y p'
          | None => None
          end
      | JDict entries =>
          match entries !! i with
          | Some (key, value) => entry_at (Some key) value p'
          | None => None
          end
      | _ => None
      end
  end.

(** The positions of the values held under the key [token]. *)
Fixpoint match_paths (token : string) (j : json) : list (list nat) :=
  match j with
  | JDict entries =>
      paths_from (λ '(key, value),
                    (if decide (key = token) then [[]] else [])
                    ++ match_paths token value)
                 0 entries
  | JList items => paths_from (match_paths token) 0 items
  | _ => []
  end.

(** Induction on nested data, with the hypothesis for every child. *)
Fixpoint item_nested_ind {A : Type} (P : item A → Prop)
    (Hscalar : ∀ a, P (Scalar a))
    (Hseq : ∀ kind items, Forall P items → P (Seq kind items))
    (x : item A) : P x :=
  match x with
  | Scalar a => Hscalar a
  | Seq kind items =>
      Hseq kind items
        ((fix children (l : list (item A)) : Forall P l :=
            match l with
            | [] => Forall_nil_2 P
            | y :: rest => Forall_cons_2 P y rest (item_nested_ind P Hscalar Hseq y) (children rest)
            end) items)
  end.

Fixpoint json_nested_ind (P : json → Prop)
    (Hnull : P JNull) (Hbool : ∀ b, P (JBool b)) (Hnum : ∀ n, P (JNum n))
    (Hstr : ∀ s, P (JStr s))
    (Hlist : ∀ items, Forall P items → P (JList items))
    (Hdict : ∀ entries, Forall (λ kv, P kv.2) entries → P (JDict entries))
    (j : json) : P j :=
  match j with
  | JNull => Hnull
  | JBool b => Hbool b
  | JNum n => Hnum n
  | JStr s => Hstr s
  | JList items =>
      Hlist items
        ((fix children (l : list json) : Forall P l :=
            match l with
            | [] => Forall_nil_2 P
            | y :: rest =>
                Forall_cons_2 P y rest
                  (json_nested_ind P Hnull Hbool Hnum Hstr Hlist Hdict y) (children rest)
            end) items)
  | JDict entries =>
      Hdict entries
        ((fix children (l : list (string * json)) : Forall (λ kv, P kv.2) l :=
            match l with
            | [] => Forall_nil_2 _
            | kv :: rest =>
                Forall_cons_2 (λ kv, P kv.2) kv rest
                  (json_nested_ind P Hnull Hbool Hnum Hstr Hlist Hdict kv.2) (children rest)
            end) entries)
  end.

(** ** multisub *)

(** [k] is a prefix of [s]. *)
Fixpoint starts_with (k s : str) : bool :=
  match k, s with
  | [], _ => true
  | _ :: _, [] => false
  | c :: k', d :: s' => bool_decide (c = d) && starts_with k' s'
  end.

(** The compiled pattern: ["|".join(map(re.escape, keys))] is the ordered
    alternation of the keys taken literally; with no key at all the joined
    text is the empty pattern, which matches the empty text. *)
Definition alternatives (keys : list str) : list str :=
  match keys with
  | [] => [[]]
  | _ => keys
  end.

(** Matching at one position: the alternatives are tried in order, and an
    empty match is refused when the scan has to advance; the result is the
    length of the match. *)
Fixpoint match_here (alts : list str) (rest : str) (must_advance : bool) : option nat :=
  match alts with
  | [] => None
  | k :: alts' =>
      if starts_with k rest && negb (must_advance && bool_decide (k = []))
      then Some (length k)
      else match_here alts' rest must_advance
  end.

(** Searching from position [pos], where [rest] is the text from [pos] on:
    the leftmost position with a match, as (start, end).  Only the first
    position tried is subject to [must_advance]. *)
Fixpoint search (alts : list str) (rest : str) (pos : nat) (must_advance : bool)
    : option (nat * nat) :=
  match match_here alts rest must_advance with
  | Some n => Some (pos, (pos + n)%nat)
  | None =>
      match rest with
      | [] => None
      | _ :: rest' => search alts rest' (S pos) false
      end
  end.

(** The loop of [regex.sub(repl, string)] with the callable
    [repl = lambda match: characters[match.group(0)]]: text between matches
    is copied, each match is replaced by the callable's result, and the scan
    resumes where the match ended; after an empty match the next one has to
    advance.  [None] is returned when [fuel] rounds do not suffice. *)
Fixpoint sub_loop (alts : list str) (characters : list (str * str)) (string : str)
    (fuel pos : nat) (must_advance : bool) : option (result str) :=
  match fuel with
  | O => None
  | S fuel' =>
      match search alts (drop pos string) pos must_advance with
      | None => Some (Ok (drop pos string))
      | Some (b, e) =>
          match items_get characters (take (e - b) (drop b string)) with
          | None => Some (Raise KeyError)
          | Some replacement =>
              match sub_loop alts characters string fuel' e (bool_decide (e = b)) with
              | Some (Ok out) =>
                  Some (Ok (take (b - pos) (drop pos string) ++ replacement ++ out))
              | other => other
              end
          end
      end
  end.

(** [multisub(characters, string)]; every round of the loop moves on in the
    text or turns [must_advance] on, so twice the length plus two rounds
    are enough. *)
Definition multisub (characters : list (str * str)) (string : str) : option (result str) :=
  sub_loop (alternatives characters.*1) characters string
           (2 * length string + 2) 0 false.

(** *** A single left-to-right pass, as the documentation words it *)

(** The first key of the mapping, in its order, that occurs at the head of
    [rest], with its replacement. *)
Fixpoint first_key (characters : list (str * str)) (rest : str) : option (str * str) :=
  match characters with
  | [] => None
  | (k, v) :: more => if starts_with k rest then Some (k, v) else first_key more rest
  end.

(** [single_pass characters s out]: [out] is [s] with the occurrences of
    keys replaced in one pass from the left.  At each position the first
    key that occurs there wins: its occurrence is replaced and the pass
    resumes behind it, the replacement itself not being looked at again;
    where no key occurs the character is kept.  An empty key, when it
    wins, has its (empty) occurrence replaced in front of the character,
    or at the end of the text. *)
Inductive single_pass (characters : list (str * str)) : str → str → Prop :=
  | pass_end :
      first_key characters [] = None → single_pass characters [] []
  | pass_end_insert v :
      first_key characters [] = Some ([], v) → single_pass characters [] v
  | pass_replace k v rest out :
      first_key characters (k ++ rest) = Some (k, v) → k ≠ [] →
      single_pass characters rest out →
      single_pass characters (k ++ rest) (v ++ out)
  | pass_insert c rest v out :
      first_key characters (c :: rest) = Some ([], v) →
      single_pass characters rest out →
      single_pass characters (c :: rest) (v ++ c :: out)
  | pass_keep c rest out :
      first_key characters (c :: rest) = None →
      single_pass characters rest out →
      single_pass characters (c :: rest) (c :: out).

(** What the mapping makes of one character: its replacement when the
    character is a key, the character itself otherwise. *)
Definition translate_char (characters : list (str * str)) (c : ascii) : str :=
  default [c] (items_get characters [c]).

(** ** cleave *)

(** [string.find(sub)]: the lowest index where [sub] occurs, or [-1]. *)
Fixpoint str_find_from (sub s : str) (pos : Z) : Z :=
  if starts_with sub s then pos
  else
    match s with
    | [] => -1
    | _ :: s' => str_find_from sub s' (pos + 1)
    end.

Definition str_find (sub s : str) : Z := str_find_from sub s 0.

(** [sub in string] *)
Fixpoint str_contains (sub s : str) : bool :=
  starts_with sub s ||
    match s with
    | [] => false
    | _ :: s' => str_contains sub s'
    end.

Definition cleave (string char : str) (anterior : pyval) : str :=
  if str_contains char string then
    let pos := str_find char string in
    if is_True anterior
    then py_slice string None (Some pos)
    else py_slice string (Some (pos + 1)) None
  else string.

(** * Properties *)

(** ** Entries of a dict *)

Section items.
Context {K V : Type} `{EqDecision K}.
Implicit Types (entries : list (K * V)).

(** With distinct keys, [entries[k]] is the value of the entry of [k]. *)
Lemma items_get_unique entries k v :
  NoDup entries.*1 → (k, v) ∈ entries → items_get entries k = Some v.
Proof.
  induction entries as [|[k' v'] entries IH]; simpl; intros Hnd Hin.
  - by apply elem_of_nil in Hin.
  - apply NoDup_cons in Hnd as [Hk' Hnd].
    apply elem_of_cons in Hin as [Heq|Hin].
    + injection Heq as -> ->. by rewrite decide_True.
    + rewrite decide_False; [by apply IH|].
      intros ->. apply Hk'. apply list_elem_of_fmap. by exists (k, v).
Qed.

Lemma items_get_None entries k :
  k ∉ entries.*1 → items_get entries k = None.
Proof.
  induction entries as [|[k' v'] entries IH]; simpl; intros Hk; [done|].
  apply not_elem_of_cons in Hk as [Hne Hk].
  rewrite decide_False; [by apply IH | congruence].
Qed.
End items.

(** ** CustomDict.set *)

Section custom_dict.
Context {V : Type}.
Implicit Types (m : gmap key V) (kwargs : list (string * V)).

Lemma set_item_lookup m kv k :
  set_item m kv !! k =
    match m !! k with
    | Some v => Some v
    | None => if decide (k = inl kv.1) then Some kv.2 else None
    end.
Proof.
  unfold set_item. destruct (m !! inl kv.1) as [w|] eqn:Hk.
  - destruct (m !! k) eqn:Hm; [done|].
    case_decide; [congruence | done].
  - rewrite lookup_insert. case_decide as Heq.
    + subst k. rewrite Hk. by rewrite decide_True.
    + destruct (m !! k); [done|]. rewrite decide_False; [done | congruence].
Qed.

Lemma set_lookup m kwargs k :
  foldl set_item m kwargs !! k =
    match m !! k with
    | Some v => Some v
    | None => match k with
              | inl s => items_get kwargs s
              | inr _ => None
              end
    end.
Proof.
  revert m. induction kwargs as [|[k' v'] kwargs IH]; intros m; simpl.
  - by destruct (m !! k), k.
  - rewrite IH, set_item_lookup. simpl.
    destruct (m !! k) as [w|]; [done|].
    destruct k as [s|z].
    + destruct (decide (k' = s)) as [->|Hne].
      * by rewrite decide_True.
      * rewrite decide_False; [done | congruence].
    + by rewrite decide_False.
Qed.

(** C1: [set] never overwrites a key that was present before the call,
    binds every keyword whose name was absent to the given value, and
    adds nothing else; the mapping itself is returned exactly when
    [assign is True]. *)
Theorem set_never_overwrites m assign kwargs :
  NoDup kwargs.*1 →
  let m' := (CustomDict_set m assign kwargs).1 in
  (∀ k v, m !! k = Some v → m' !! k = Some v) ∧
  (∀ k v, (k, v) ∈ kwargs → m !! inl k = None → m' !! inl k = Some v) ∧
  (∀ k, m !! k = None → (∀ s, k = inl s → s ∉ kwargs.*1) → m' !! k = None) ∧
  (CustomDict_set m assign kwargs).2 = (if is_True assign then Some m' else None).
Proof.
  intros Hnd m'. subst m'. unfold CustomDict_set. simpl.
  repeat split.
  - intros k v Hm. by rewrite set_lookup, Hm.
  - intros k v Hin Hm. rewrite set_lookup, Hm. by apply items_get_unique.
  - intros k Hm Hk. rewrite set_lookup, Hm. destruct k as [s|z]; [|done].
    apply items_get_None. by apply Hk.
Qed.
End custom_dict.

(** [{"a": 1, 7: 2}.set(a=5, b=6)] keeps [a] and adds [b]. *)
Lemma set_never_overwrites_witness :
  (CustomDict_set ({[ inl "a"%string := 1; inr 7 := 2 ]} : gmap key Z) (PyBool true)
     [("a"%string, 5); ("b"%string, 6)]).1 !! inl "a"%string = Some 1 ∧
  (CustomDict_set ({[ inl "a"%string := 1; inr 7 := 2 ]} : gmap key Z) (PyBool true)
     [("a"%string, 5); ("b"%string, 6)]).1 !! inl "b"%string = Some 6.
Proof.
  assert (Hnd : NoDup [("a"%string, 5); ("b"%string, 6)].*1).
  { apply (bool_decide_unpack (NoDup [("a"%string, 5); ("b"%string, 6)].*1)).
    vm_compute. exact I. }
  destruct (set_never_overwrites ({[ inl "a"%string := 1; inr 7 := 2 ]} : gmap key Z)
              (PyBool true) [("a"%string, 5); ("b"%string, 6)] Hnd)
    as (Hold & Hnew & _).
  split.
  - apply Hold. reflexivity.
  - apply Hnew; [|reflexivity]. apply elem_of_cons. right. apply elem_of_cons. by left.
Defined.

(** ** chunks *)

Section chunks.
Context {A : Type}.
Implicit Types (s : list A) (n : Z).

Lemma clamp_index_nonneg (len i : Z) :
  0 ≤ len → 0 ≤ i → clamp_index len i = Z.min i len.
Proof.
  intros Hlen Hi. unfold clamp_index.
  assert ((i <? 0) = false) as -> by lia.
  assert ((i <? 0) = false) as -> by lia.
  destruct (Z.ltb_spec len i); lia.
Qed.

Lemma py_slice_nonneg s a b :
  0 ≤ a → 0 ≤ b →
  py_slice s (Some a) (Some b) = take (Z.to_nat (b - a)) (drop (Z.to_nat a) s).
Proof.
  intros Ha Hb. unfold py_slice. simpl.
  rewrite (clamp_index_nonneg _ a), (clamp_index_nonneg _ b) by lia.
  destruct (decide (Z.of_nat (length s) < a)) as [Hla|Hla].
  - rewrite (Z.min_r a) by lia.
    rewrite (drop_ge s (Z.to_nat a)) by lia.
    rewrite Nat2Z.id, drop_all.
    by rewrite !take_nil.
  - rewrite (Z.min_l a) by lia.
    destruct (decide (Z.of_nat (length s) < b)) as [Hlb|Hlb].
    + rewrite !take_ge; [done | |]; rewrite length_drop; lia.
    + by rewrite (Z.min_l b) by lia.
Qed.

Lemma range_length_chunks (L n : Z) :
  0 ≤ L → 0 < n →
  let c := range_length 0 L n in
  0 ≤ c ∧ L ≤ c * n ∧ (0 < c → (c - 1) * n < L).
Proof.
  intros HL Hn. unfold range_length.
  destruct (Z.ltb_spec 0 n); [|lia].
  destruct (Z.ltb_spec 0 L); simpl; [|lia].
  replace (L - 0 - 1) with (L - 1) by lia.
  pose proof (Z.div_mod (L - 1) n ltac:(lia)) as Hdm.
  pose proof (Z.mod_pos_bound (L - 1) n Hn) as Hmod.
  assert (0 ≤ (L - 1) / n) by (apply Z.div_pos; lia).
  split; [lia|]. split; [nia|]. intros _. nia.
Qed.

Lemma chunks_unfold s n :
  0 < n →
  chunks s n =
    Ok ((λ k : nat, take (Z.to_nat n) (drop (k * Z.to_nat n)%nat s))
          <$> seq 0 (Z.to_nat (range_length 0 (Z.of_nat (length s)) n))).
Proof.
  intros Hn. unfold chunks, py_range.
  destruct (Z.eqb_spec n 0); [lia|]. f_equal.
  rewrite <- list_fmap_compose. apply list_fmap_ext.
  intros i k _. simpl. rewrite py_slice_nonneg by nia.
  f_equal; [lia|]. f_equal. nia.
Qed.

Lemma concat_chunks s (m c : nat) :
  concat ((λ k : nat, take m (drop (k * m)%nat s)) <$> seq 0 c) = take (c * m)%nat s.
Proof.
  induction c as [|c IH]; [done|].
  rewrite seq_S, fmap_app, concat_app, IH. simpl.
  rewrite app_nil_r, take_take_drop. f_equal. lia.
Qed.

(** C2: for a positive chunk size, [chunks] yields chunks whose
    concatenation is the sequence itself; every chunk but the last has
    exactly [n] elements, and the last one has between 1 and [n]. *)
Theorem chunks_concat_lengths s n :
  0 < n →
  ∃ cs, chunks s n = Ok cs ∧
    concat cs = s ∧
    (∀ (i : nat) c, cs !! i = Some c → (S i < length cs)%nat →
       Z.of_nat (length c) = n) ∧
    (∀ c, last cs = Some c → 0 < Z.of_nat (length c) ≤ n).
Proof.
  intros Hn. eexists. split; [by apply chunks_unfold|].
  pose proof (range_length_chunks (Z.of_nat (length s)) n ltac:(lia) Hn)
    as (Hc0 & Hcover & Hlast).
  set (c := Z.to_nat (range_length 0 (Z.of_nat (length s)) n)) in *.
  set (m := Z.to_nat n).
  assert (Hcov : (length s ≤ c * m)%nat) by (subst c m; nia).
  assert (Hlst : (0 < c → (c - 1) * m < length s)%nat).
  { intros Hpos. subst c m.
    assert (0 < range_length 0 (Z.of_nat (length s)) n) as Hp by lia.
    specialize (Hlast Hp). nia. }
  assert (Hm : (0 < m)%nat) by (subst m; lia).
  split; [|split].
  - rewrite concat_chunks. by apply take_ge.
  - intros i ch Hi Hlt. rewrite length_fmap, length_seq in Hlt.
    rewrite list_lookup_fmap in Hi.
    destruct (seq 0 c !! i) as [k|] eqn:Hk; [|done].
    apply lookup_seq in Hk as [-> _]. simpl in Hi.
    injection Hi as <-. rewrite length_take, length_drop.
    specialize (Hlst ltac:(lia)). subst m. nia.
  - intros ch Hch. rewrite last_lookup, length_fmap, length_seq in Hch.
    rewrite list_lookup_fmap in Hch.
    destruct (seq 0 c !! pred c) as [k|] eqn:Hk; [|done].
    apply lookup_seq in Hk as [-> Hpc]. simpl in Hch.
    injection Hch as <-. rewrite length_take, length_drop.
    specialize (Hlst ltac:(lia)). subst m. nia.
Qed.

(** C8 (as the code behaves): a zero chunk size raises [ValueError] from
    [range], and a negative chunk size yields no chunk and raises
    nothing. *)
Theorem chunks_nonpositive_size s n :
  n ≤ 0 →
  chunks s n = (if n =? 0 then Raise ValueError else Ok []).
Proof.
  intros Hn. unfold chunks, py_range.
  destruct (Z.eqb_spec n 0) as [->|Hne]; [done|].
  unfold range_length. destruct (Z.ltb_spec 0 n); [lia|].
  destruct (Z.ltb_spec (Z.of_nat (length s)) 0); [lia|]. done.
Qed.
End chunks.

Lemma chunks_concat_lengths_witness :
  ∃ cs, chunks [1; 2; 3; 4; 5] 2 = Ok cs ∧ concat cs = [1; 2; 3; 4; 5] ∧
    (∀ (i : nat) c, cs !! i = Some c → (S i < length cs)%nat → Z.of_nat (length c) = 2) ∧
    (∀ c, last cs = Some c → 0 < Z.of_nat (length c) ≤ 2).
Proof. apply (chunks_concat_lengths [1; 2; 3; 4; 5] 2). lia. Defined.

Example chunks_five_by_two : chunks [1; 2; 3; 4; 5] 2 = Ok [[1; 2]; [3; 4]; [5]].
Proof. reflexivity. Qed.

(** [list(chunks([1, 2, 3], -1))] is [[]]: no error is signalled. *)
Lemma chunks_negative_size_no_error :
  ¬ (∃ e, chunks [1; 2; 3] (-1) = Raise e).
Proof. intros [e He]. vm_compute in He. discriminate. Qed.

Lemma chunks_nonpositive_size_witness :
  chunks [1; 2; 3] (-1) = Ok [] ∧ chunks [1; 2; 3] 0 = Raise ValueError.
Proof.
  split.
  - apply (chunks_nonpositive_size [1; 2; 3] (-1)). lia.
  - apply (chunks_nonpositive_size [1; 2; 3] 0). lia.
Defined.

(** ** nth *)

Section nth.
Context {A St : Type} (next : St → option (A * St)).

Lemma consume_yields it xs it1 :
  yields next it xs it1 → consume next (length xs) it = (it1, true).
Proof.
  induction 1 as [it|it x it' xs it'' Hnext _ IH]; simpl; [done|].
  by rewrite Hnext.
Qed.

Lemma consume_exhausted it xs it1 (n : nat) :
  yields next it xs it1 → next it1 = None → (length xs < n)%nat →
  consume next n it = (it1, false).
Proof.
  intros Hy Hend. revert n.
  induction Hy as [it|it x it' xs it'' Hnext _ IH]; intros n Hlt.
  - destruct n as [|n]; simpl in *; [lia|]. by rewrite Hend.
  - destruct n as [|n]; simpl in *; [lia|]. rewrite Hnext. apply IH; [done | lia].
Qed.

Lemma islice_bounds_ok_true (maxsize index : Z) :
  0 ≤ index < maxsize → islice_bounds_ok maxsize index (index + 1) = true.
Proof.
  intros Hi. unfold islice_bounds_ok.
  rewrite !andb_true_iff, !Z.leb_le. lia.
Qed.

Lemma islice_bounds_ok_false (maxsize index : Z) :
  index < 0 ∨ maxsize ≤ index → islice_bounds_ok maxsize index (index + 1) = false.
Proof.
  intros Hi. unfold islice_bounds_ok.
  apply not_true_is_false. rewrite !andb_true_iff, !Z.leb_le. lia.
Qed.

Lemma nth_found (maxsize : Z) it xs it1 x it2 :
  yields next it xs it1 → next it1 = Some (x, it2) →
  Z.of_nat (length xs) < maxsize →
  nth next maxsize it (Z.of_nat (length xs)) = (Ok x, it2).
Proof.
  intros Hy Hnext Hmax. unfold nth.
  rewrite islice_bounds_ok_true by lia.
  rewrite Nat2Z.id, (consume_yields _ _ _ Hy). by rewrite Hnext.
Qed.

Lemma nth_exhausted (maxsize : Z) it xs it1 index :
  yields next it xs it1 → next it1 = None →
  Z.of_nat (length xs) ≤ index → index < maxsize →
  nth next maxsize it index = (Raise StopIteration, it1).
Proof.
  intros Hy Hend Hle Hmax. unfold nth.
  rewrite islice_bounds_ok_true by lia.
  destruct (decide (length xs = Z.to_nat index)) as [Heq|Hne].
  - rewrite <- Heq, (consume_yields _ _ _ Hy). by rewrite Hend.
  - rewrite (consume_exhausted _ _ _ _ Hy Hend); [done | lia].
Qed.

Lemma nth_rejected (maxsize : Z) it index :
  index < 0 ∨ maxsize ≤ index →
  nth next maxsize it index = (Raise ValueError, it).
Proof. intros Hi. unfold nth. by rewrite islice_bounds_ok_false. Qed.
End nth.

Lemma list_yields {A : Type} (l : list A) (n : nat) :
  yields list_next l (take n l) (drop n l).
Proof.
  revert n. induction l as [|x l IH]; intros [|n]; simpl; try constructor.
  eapply yields_cons; [done | apply IH].
Qed.

(** On a list iterator [nth] is indexing, and the iterator is left just
    after the element returned. *)
Lemma nth_list {A : Type} (maxsize : Z) (l : list A) (index : Z) :
  0 ≤ index < maxsize →
  nth list_next maxsize l index =
    match l !! Z.to_nat index with
    | Some x => (Ok x, drop (S (Z.to_nat index)) l)
    | None => (Raise StopIteration, [])
    end.
Proof.
  intros Hi. destruct (l !! Z.to_nat index) as [x|] eqn:Hx.
  - pose proof (lookup_lt_Some _ _ _ Hx) as Hlt.
    pose proof (nth_found list_next maxsize l _ _ x (drop (S (Z.to_nat index)) l)
                  (list_yields l (Z.to_nat index))) as Hn.
    rewrite length_take_le, Z2Nat.id in Hn by lia. apply Hn; [|lia].
    by rewrite (drop_S _ _ _ Hx).
  - apply lookup_ge_None in Hx.
    pose proof (nth_exhausted list_next maxsize l _ _ index
                  (list_yields l (length l))) as Hn.
    rewrite drop_all, length_take in Hn. apply Hn; [done | lia | lia].
Qed.

(** C3 (as the code behaves): for an index from [0] up to, but not
    including, [sys.maxsize], [nth] discards the elements before the index
    and returns the element at it, leaving the iterator just behind that
    element, and raises [StopIteration] when the iterator runs out at or
    before the index; for any other index [islice] rejects the bounds and
    [nth] raises [ValueError] without touching the iterator.  In particular
    [nth(iter([10, 20, 30]), 1)] is [20] and [nth(iter([]), 0)] raises
    [StopIteration]. *)
Theorem nth_spec :
  (∀ (A St : Type) (next : St → option (A * St)) (maxsize : Z) (it : St) (index : Z),
     0 ≤ index < maxsize →
     (∀ xs it1 x it2,
        yields next it xs it1 → Z.of_nat (length xs) = index →
        next it1 = Some (x, it2) →
        nth next maxsize it index = (Ok x, it2)) ∧
     (∀ xs it1,
        yields next it xs it1 → Z.of_nat (length xs) ≤ index →
        next it1 = None →
        nth next maxsize it index = (Raise StopIteration, it1))) ∧
  (∀ (A St : Type) (next : St → option (A * St)) (maxsize : Z) (it : St) (index : Z),
     index < 0 ∨ maxsize ≤ index →
     nth next maxsize it index = (Raise ValueError, it)) ∧
  (∀ maxsize, 2 ≤ maxsize →
     nth list_next maxsize [10; 20; 30] 1 = (Ok 20, [30])) ∧
  (∀ maxsize, 1 ≤ maxsize →
     nth list_next maxsize (@nil Z) 0 = (Raise StopIteration, [])).
Proof.
  split; [|split; [|split]].
  - intros A St next maxsize it index Hi. split.
    + intros xs it1 x it2 Hy Hlen Hnext. subst index.
      apply (nth_found next maxsize it xs it1 x it2); [done | done | lia].
    + intros xs it1 Hy Hle Hend. apply (nth_exhausted next maxsize it xs); [done | done | lia | lia].
  - intros A St next maxsize it index Hi. by apply nth_rejected.
  - intros maxsize Hmax. by rewrite nth_list by lia.
  - intros maxsize Hmax. by rewrite nth_list by lia.
Qed.

Lemma nth_spec_witness :
  nth list_next maxsize_64bit [10; 20; 30] 2 = (Ok 30, []) ∧
  nth list_next maxsize_64bit [10; 20; 30] 5 = (Raise StopIteration, []) ∧
  nth list_next maxsize_64bit [10; 20; 30] (-1) = (Raise ValueError, [10; 20; 30]).
Proof.
  destruct nth_spec as (Hgen & Hrej & _).
  destruct (Hgen Z (list Z) list_next maxsize_64bit [10; 20; 30] 2
              ltac:(unfold maxsize_64bit; lia)) as [Hfound _].
  destruct (Hgen Z (list Z) list_next maxsize_64bit [10; 20; 30] 5
              ltac:(unfold maxsize_64bit; lia)) as [_ Hstop].
  split; [|split].
  - apply (Hfound [10; 20] [30] 30 []); [|reflexivity|reflexivity].
    eapply yields_cons; [reflexivity|]. eapply yields_cons; [reflexivity|]. constructor.
  - apply (Hstop [10; 20; 30] []); [|simpl; lia|reflexivity].
    do 3 (eapply yields_cons; [reflexivity|]). constructor.
  - apply (Hrej Z (list Z) list_next maxsize_64bit [10; 20; 30] (-1)). lia.
Defined.

Lemma count_yields (n : nat) (k : Z) :
  ∃ xs, yields count_next k xs (k + Z.of_nat n) ∧ length xs = n.
Proof.
  revert k. induction n as [|n IH]; intros k.
  - exists []. rewrite Z.add_0_r. split; [constructor | done].
  - destruct (IH (k + 1)) as (xs & Hxs & Hlen). exists (k :: xs). split.
    + replace (k + Z.of_nat (S n)) with (k + 1 + Z.of_nat n) by lia.
      by eapply yields_cons.
    + simpl. by rewrite Hlen.
Qed.

Lemma count_has_index (index : Z) :
  0 ≤ index →
  ∃ xs, yields count_next 0 xs index ∧ Z.of_nat (length xs) = index.
Proof.
  intros Hi. destruct (count_yields (Z.to_nat index) 0) as (xs & Hxs & Hlen).
  exists xs. rewrite Z.add_0_l, Z2Nat.id in Hxs by done.
  split; [done|]. rewrite Hlen. by apply Z2Nat.id.
Qed.

(** At [sys.maxsize] itself [islice] rejects the bounds: on a 64-bit build
    [nth(itertools.count(), sys.maxsize)] raises [ValueError] and consumes
    nothing, although the iterator yields [sys.maxsize] elements and then
    still has the element at that index.  (On [iter([10, 20, 30])] the same
    index raises [ValueError] too and leaves the three elements in place.) *)
Lemma nth_index_maxsize_counterexample :
  nth count_next maxsize_64bit 0 maxsize_64bit = (Raise ValueError, 0) ∧
  ∃ xs,
    yields count_next 0 xs maxsize_64bit ∧
    Z.of_nat (length xs) = maxsize_64bit ∧
    count_next maxsize_64bit = Some (maxsize_64bit, maxsize_64bit + 1).
Proof.
  split.
  - apply nth_rejected. right. lia.
  - destruct (count_has_index maxsize_64bit) as (xs & Hxs & Hlen).
    + unfold maxsize_64bit. lia.
    + by exists xs.
Qed.

(** ** cleave *)

Section cleave.
Implicit Types (s pre post : str) (c : ascii).

Lemma starts_with_char c s :
  starts_with [c] s = true ↔ ∃ s', s = c :: s'.
Proof.
  destruct s as [|d s']; simpl.
  - split; [done | by intros [? ?]].
  - rewrite andb_true_r, bool_decide_eq_true. split.
    + intros ->. by eexists.
    + intros [? Heq]. by injection Heq.
Qed.

Lemma starts_with_other c d s : c ≠ d → starts_with [c] (d :: s) = false.
Proof. intros Hne. simpl. by rewrite bool_decide_eq_false_2. Qed.

Lemma starts_with_same c s : starts_with [c] (c :: s) = true.
Proof. apply starts_with_char. by eexists. Qed.

Lemma str_contains_char c s : str_contains [c] s = true ↔ c ∈ s.
Proof.
  induction s as [|d s IH].
  - simpl. split; [done | by intros ?%elem_of_nil].
  - cbn [str_contains]. rewrite orb_true_iff, IH, elem_of_cons, starts_with_char.
    split; (intros [H|H]; [left|by right]).
    + destruct H as [? Heq]. by injection Heq.
    + subst. by eexists.
Qed.

Lemma str_find_from_char c pre post (pos : Z) :
  c ∉ pre → str_find_from [c] (pre ++ c :: post) pos = pos + Z.of_nat (length pre).
Proof.
  revert pos. induction pre as [|d pre IH]; intros pos Hc.
  - cbn [app str_find_from]. rewrite starts_with_same. simpl. lia.
  - apply not_elem_of_cons in Hc as [Hne Hc].
    cbn [app str_find_from]. rewrite starts_with_other by done.
    rewrite IH by done. simpl length. lia.
Qed.

Lemma py_slice_before pre post :
  py_slice (pre ++ post) None (Some (Z.of_nat (length pre))) = pre.
Proof.
  unfold py_slice. simpl. rewrite length_app.
  rewrite clamp_index_nonneg by lia. rewrite Z.min_l by lia.
  rewrite Z.sub_0_r, Nat2Z.id. change (Z.to_nat 0) with 0%nat.
  by rewrite drop_0, take_app_length.
Qed.

Lemma py_slice_after pre post :
  py_slice (pre ++ post) (Some (Z.of_nat (length pre))) None = post.
Proof.
  unfold py_slice. simpl. rewrite length_app.
  rewrite clamp_index_nonneg by lia. rewrite Z.min_l by lia.
  rewrite Nat2Z.id, drop_app_length. apply take_ge. lia.
Qed.

Lemma cleave_at_first c pre post (anterior : pyval) :
  c ∉ pre →
  cleave (pre ++ c :: post) [c] anterior = if is_True anterior then pre else post.
Proof.
  intros Hc. unfold cleave.
  assert (str_contains [c] (pre ++ c :: post) = true) as ->.
  { apply str_contains_char, elem_of_app. right. by left. }
  unfold str_find. rewrite str_find_from_char by done. rewrite Z.add_0_l.
  destruct (is_True anterior).
  - apply py_slice_before.
  - replace (pre ++ c :: post) with ((pre ++ [c]) ++ post) by by rewrite <- app_assoc.
    replace (Z.of_nat (length pre) + 1) with (Z.of_nat (length (pre ++ [c])))
      by (rewrite length_app; simpl; lia).
    apply py_slice_after.
Qed.

Lemma cleave_absent c s (anterior : pyval) : c ∉ s → cleave s [c] anterior = s.
Proof.
  intros Hc. unfold cleave.
  destruct (str_contains [c] s) eqn:Hin; [|done].
  by apply str_contains_char in Hin.
Qed.

Lemma is_True_false (v : pyval) : v ≠ PyBool true → is_True v = false.
Proof. destruct v as [|[|]| |]; simpl; congruence. Qed.
End cleave.

(** C6: for a single delimiter character, [cleave] returns the text
    strictly before its first occurrence when the flag is [True], the text
    strictly after it when the flag is [False], and the text itself when
    the delimiter does not occur; with the three documented examples. *)
Theorem cleave_spec :
  (∀ (c : ascii) (pre post : str) (flag : bool),
     c ∉ pre →
     cleave (pre ++ c :: post) [c] (PyBool flag) = if flag then pre else post) ∧
  (∀ (c : ascii) (s : str) (flag : bool),
     c ∉ s → cleave s [c] (PyBool flag) = s) ∧
  cleave (pystr "name@gmail.com") (pystr "@") (PyBool true) = pystr "name" ∧
  cleave (pystr "name@gmail.com") (pystr "@") (PyBool false) = pystr "gmail.com" ∧
  cleave (pystr "noatsign") (pystr "@") (PyBool true) = pystr "noatsign".
Proof.
  split; [|split; [|repeat split; reflexivity]].
  - intros c pre post flag Hc. rewrite cleave_at_first by done. by destruct flag.
  - intros c s flag Hc. by apply cleave_absent.
Qed.

Lemma cleave_spec_witness :
  cleave (pystr "a=b=c") (pystr "=") (PyBool false) = pystr "b=c" ∧
  cleave (pystr "abc") (pystr "=") (PyBool false) = pystr "abc".
Proof.
  destruct cleave_spec as (Hsplit & Habsent & _).
  split.
  - apply (Hsplit "="%char (pystr "a") (pystr "b=c") false).
    intros Hin. apply list_elem_of_singleton in Hin. discriminate.
  - apply (Habsent "="%char (pystr "abc") false).
    intros Hin. repeat (apply elem_of_cons in Hin as [Hin|Hin]; [discriminate|]).
    by apply elem_of_nil in Hin.
Defined.

(** C10: the flag is compared with [is]: for a text containing the
    delimiter, a truthy flag other than [True] itself (such as [1]) gives
    the text after the first occurrence, as [anterior=False] does. *)
Theorem cleave_truthy_flag_not_True (c : ascii) (pre post : str) (v : pyval) :
  truthy v = true → v ≠ PyBool true → c ∉ pre →
  cleave (pre ++ c :: post) [c] v = post ∧
  cleave (pre ++ c :: post) [c] v = cleave (pre ++ c :: post) [c] (PyBool false).
Proof.
  intros _ Hv Hc. rewrite !cleave_at_first by done.
  by rewrite (is_True_false v Hv).
Qed.

Lemma cleave_truthy_flag_not_True_witness :
  cleave (pystr "name@gmail.com") (pystr "@") (PyInt 1) = pystr "gmail.com" ∧
  cleave (pystr "name@gmail.com") (pystr "@") (PyInt 1)
  = cleave (pystr "name@gmail.com") (pystr "@") (PyBool false).
Proof.
  apply (cleave_truthy_flag_not_True "@"%char (pystr "name") (pystr "gmail.com") (PyInt 1)).
  - reflexivity.
  - discriminate.
  - intros Hin. repeat (apply elem_of_cons in Hin as [Hin|Hin]; [discriminate|]).
    by apply elem_of_nil in Hin.
Defined.

(** ** Positions *)

Lemma path_lt_irrefl p : ¬ path_lt p p.
Proof. induction p as [|i p IH]; inversion 1; subst; [lia | done]. Qed.

Lemma path_lt_trans p q r : path_lt p q → path_lt q r → path_lt p r.
Proof.
  intros Hpq. revert r.
  induction Hpq as [i p|i j p q Hij|i p q _ IH]; intros r Hqr; inversion Hqr; subst;
    first [ apply path_lt_below
          | apply path_lt_sibling; lia
          | apply path_lt_inside; by apply IH ].
Qed.

Section paths_from.
Context {X : Type} (f : X → list (list nat)).

Lemma elem_of_paths_from (i : nat) (l : list X) (p : list nat) :
  p ∈ paths_from f i l ↔
  ∃ (k : nat) y q, l !! k = Some y ∧ q ∈ f y ∧ p = (i + k)%nat :: q.
Proof.
  revert i. induction l as [|y rest IH]; intros i; simpl.
  - split; [by intros ?%elem_of_nil | by intros (k & ? & ? & ? & _)].
  - rewrite elem_of_app, list_elem_of_fmap, IH. split.
    + intros [(q & -> & Hq)|(k & y' & q & Hk & Hq & ->)].
      * exists 0%nat, y, q. by rewrite Nat.add_0_r.
      * exists (S k), y', q. split; [done|]. split; [done|]. f_equal. lia.
    + intros ([|k] & y' & q & Hk & Hq & ->); simpl in Hk.
      * left. injection Hk as <-. exists q. by rewrite Nat.add_0_r.
      * right. exists k, y', q. split; [done|]. split; [done|]. f_equal. lia.
Qed.

Lemma fmap_cons_sorted (i : nat) (ps : list (list nat)) :
  StronglySorted path_lt ps → StronglySorted path_lt (cons i <$> ps).
Proof.
  induction 1 as [|p ps _ IH Hall]; simpl; constructor; [done|].
  apply Forall_fmap. eapply Forall_impl; [done|].
  intros q Hq. by apply path_lt_inside.
Qed.

Lemma paths_from_sorted (i : nat) (l : list X) :
  Forall (λ y, StronglySorted path_lt (f y)) l →
  StronglySorted path_lt (paths_from f i l).
Proof.
  intros Hall. revert i.
  induction Hall as [|y rest Hy _ IH]; intros i; simpl; [constructor|].
  apply StronglySorted_app_2; [|by apply fmap_cons_sorted|apply IH].
  intros p1 p2 (q & -> & _)%list_elem_of_fmap (k & y' & q' & _ & _ & ->)%elem_of_paths_from.
  apply path_lt_sibling. lia.
Qed.

Lemma fmap_paths_from {B : Type} (g : list nat → B) (g' : X → list nat → B)
    (i : nat) (l : list X) :
  (∀ (k : nat) y q, l !! k = Some y → g ((i + k)%nat :: q) = g' y q) →
  g <$> paths_from f i l = flat_map (λ y, g' y <$> f y) l.
Proof.
  revert i. induction l as [|y rest IH]; intros i Hg; simpl; [done|].
  rewrite fmap_app, <- list_fmap_compose. f_equal.
  - apply list_fmap_ext. intros _ q _. simpl.
    rewrite <- (Hg 0%nat y q eq_refl). by rewrite Nat.add_0_r.
  - apply IH. intros k y' q Hk. rewrite <- (Hg (S k) y' q Hk). do 2 f_equal. lia.
Qed.
End paths_from.

Lemma flat_map_Forall_ext {X B : Type} (f g : X → list B) (l : list X) :
  Forall (λ y, f y = g y) l → flat_map f l = flat_map g l.
Proof. induction 1 as [|y l Hy _ IH]; simpl; [done|]. by rewrite Hy, IH. Qed.

Lemma fmap_flat_map {X B C : Type} (h : B → C) (f : X → list B) (l : list X) :
  h <$> flat_map f l = flat_map (λ y, h <$> f y) l.
Proof. induction l as [|y l IH]; simpl; [done|]. by rewrite fmap_app, IH. Qed.

(** ** flatten *)

Section flatten.
Context {A : Type}.
Implicit Types (x : item A) (iterable : list (item A)).

(** The loop of [flatten], one item at a time. *)
Lemma flatten_nil : flatten (@nil (item A)) = [].
Proof. done. Qed.

Lemma flatten_cons_scalar a iterable :
  flatten (Scalar a :: iterable) = a :: flatten iterable.
Proof. done. Qed.

Lemma flatten_cons_seq kind items iterable :
  flatten (Seq kind items :: iterable) = flatten items ++ flatten iterable.
Proof. done. Qed.

Lemma leaf_paths_sorted x : StronglySorted path_lt (leaf_paths x).
Proof.
  induction x as [a|kind items IH] using item_nested_ind; simpl.
  - repeat constructor.
  - by apply paths_from_sorted.
Qed.

Lemma elem_of_leaf_paths x p :
  p ∈ leaf_paths x ↔ ∃ a, item_at x p = Some (Scalar a).
Proof.
  revert p. induction x as [a|kind items IH] using item_nested_ind; intros p; simpl.
  - rewrite list_elem_of_singleton. split.
    + intros ->. by exists a.
    + intros [a' Ha']. by destruct p.
  - rewrite elem_of_paths_from. rewrite Forall_lookup in IH. split.
    + intros (k & y & q & Hk & Hq & ->). simpl. rewrite Hk.
      by apply (IH k y Hk).
    + intros [a Ha]. destruct p as [|k q]; [done|]. simpl in Ha.
      destruct (items !! k) as [y|] eqn:Hk; [|done].
      exists k, y, q. split; [done|]. split; [|done].
      apply (IH k y Hk). by exists a.
Qed.

Lemma leaf_paths_values x :
  item_at x <$> leaf_paths x = (λ a, Some (Scalar a)) <$> flatten_item x.
Proof.
  induction x as [a|kind items IH] using item_nested_ind; simpl; [done|].
  rewrite (fmap_paths_from _ _ (λ y q, item_at y q)).
  - rewrite fmap_flat_map. by apply flat_map_Forall_ext.
  - intros k y q Hk. simpl. by rewrite Hk.
Qed.
End flatten.

(** C7: [flatten] yields exactly the scalar leaves, in depth-first,
    left-to-right order: its values are the nodes at a strictly increasing
    list of positions, and these positions are all those of scalar leaves.
    In particular [flatten([1, [2, [3, 4], 5], 6])] yields 1 to 6 in
    order. *)
Theorem flatten_spec :
  (∀ (A : Type) (iterable : list (item A)),
     ∃ ps : list (list nat),
       StronglySorted path_lt ps ∧
       (∀ p, p ∈ ps ↔ ∃ a, item_at (Seq KList iterable) p = Some (Scalar a)) ∧
       item_at (Seq KList iterable) <$> ps
       = (λ a, Some (Scalar a)) <$> flatten iterable) ∧
  flatten [Scalar 1; Seq KList [Scalar 2; Seq KList [Scalar 3; Scalar 4]; Scalar 5];
           Scalar 6]
  = [1; 2; 3; 4; 5; 6].
Proof.
  split; [|reflexivity].
  intros A iterable. exists (leaf_paths (Seq KList iterable)).
  split; [apply leaf_paths_sorted|]. split.
  - intros p. apply elem_of_leaf_paths.
  - apply (leaf_paths_values (Seq KList iterable)).
Qed.

(** ** fetch *)

Section fetch.
Variable token : string.

Lemma fetch_scalar j : is_container j = false → fetch j token = [].
Proof. by destruct j. Qed.

Lemma fetch_guard j : (if is_container j then fetch j token else []) = fetch j token.
Proof. by destruct j. Qed.

Lemma match_paths_nonempty j p : p ∈ match_paths token j → p ≠ [].
Proof.
  destruct j; simpl; try by intros ?%elem_of_nil.
  all: by intros (k & y & q & _ & _ & ->)%elem_of_paths_from.
Qed.

Lemma match_paths_sorted j : StronglySorted path_lt (match_paths token j).
Proof.
  induction j as [| | | |items IH|entries IH] using json_nested_ind; simpl;
    try constructor.
  - by apply paths_from_sorted.
  - apply paths_from_sorted. eapply Forall_impl; [exact IH|].
    intros [key value] Hvalue. simpl in *.
    case_decide; [|done]. simpl. constructor; [done|].
    apply Forall_forall. intros p Hp%match_paths_nonempty.
    destruct p; [done | constructor].
Qed.

Lemma elem_of_match_paths j held p :
  p ∈ match_paths token j ↔
  p ≠ [] ∧ ∃ v, entry_at held j p = Some (Some token, v).
Proof.
  revert held p.
  induction j as [| | | |items IH|entries IH] using json_nested_ind;
    intros held p; simpl.
  1-4: split; [by intros ?%elem_of_nil | intros [Hp [v Hv]]; by destruct p].
  - rewrite elem_of_paths_from. rewrite Forall_lookup in IH. split.
    + intros (k & y & q & Hk & Hq & ->). split; [done|]. simpl. rewrite Hk.
      by apply (IH k y Hk None q).
    + intros [Hp [v Hv]]. destruct p as [|k q]; [done|]. simpl in Hv.
      destruct (items !! k) as [y|] eqn:Hk; [|done].
      exists k, y, q. split; [done|]. split; [|done].
      apply (IH k y Hk None q). split; [|by exists v].
      intros ->. by simpl in Hv.
  - rewrite elem_of_paths_from. rewrite Forall_lookup in IH. split.
    + intros (k & [key value] & q & Hk & Hq & ->). split; [done|].
      simpl. rewrite Hk. apply elem_of_app in Hq as [Hq|Hq].
      * case_decide as Hkey; [|by apply elem_of_nil in Hq].
        apply list_elem_of_singleton in Hq as ->. subst key. by exists value.
      * by apply (IH k _ Hk (Some key) q).
    + intros [Hp [v Hv]]. destruct p as [|k q]; [done|]. simpl in Hv.
      destruct (entries !! k) as [[key value]|] eqn:Hk; [|done].
      exists k, (key, value), q. split; [done|]. split; [|done].
      apply elem_of_app. destruct q as [|i q].
      * left. simpl in Hv. injection Hv as -> ->.
        rewrite decide_True by done. by apply list_elem_of_singleton.
      * right. apply (IH k _ Hk (Some key) (i :: q)). split; [done|]. by exists v.
Qed.

Lemma match_paths_values j held :
  entry_at held j <$> match_paths token j
  = (λ v, Some (Some token, v)) <$> fetch j token.
Proof.
  revert held.
  induction j as [| | | |items IH|entries IH] using json_nested_ind;
    intros held; simpl; try done.
  - rewrite (fmap_paths_from _ _ (λ y q, entry_at None y q)).
    + rewrite fmap_flat_map. apply flat_map_Forall_ext.
      eapply Forall_impl; [exact IH|]. intros y Hy. simpl.
      by rewrite fetch_guard.
    + intros k y q Hk. simpl. by rewrite Hk.
  - rewrite (fmap_paths_from _ _ (λ kv q, entry_at (Some kv.1) kv.2 q)).
    + rewrite fmap_flat_map. apply flat_map_Forall_ext.
      eapply Forall_impl; [exact IH|]. intros [key value] Hvalue. simpl in *.
      rewrite !fmap_app, fetch_guard, Hvalue. f_equal.
      case_decide; [by subst|done].
    + intros k [key value] q Hk. simpl. by rewrite Hk.
Qed.
End fetch.

(** [iterable[key]] in the [dict] branch of [fetch] is the value of the
    entry being visited, the keys of a [dict] being distinct. *)
Lemma fetch_getitem_entry (entries : list (string * json)) (i : nat) key value :
  NoDup entries.*1 → entries !! i = Some (key, value) →
  items_get entries key = Some value.
Proof.
  intros Hnd Hi. apply items_get_unique; [done|].
  by eapply list_elem_of_lookup_2.
Qed.

(** C4: [fetch] yields exactly the values held under the key [token], at
    any depth, in depth-first order with a value yielded before the matches
    below it: its values are the nodes at a strictly increasing list of
    positions, and these positions are all those of values held under
    [token].  In particular, on
    [{"a": {"b": {"a": 1}}, "c": [{"a": 2}]}] with token ["a"] it yields
    [{"b": {"a": 1}}], then [1], then [2]. *)
Theorem fetch_spec :
  (∀ (iterable : json) (token : string),
     ∃ ps : list (list nat),
       StronglySorted path_lt ps ∧
       (∀ p, p ∈ ps ↔ ∃ v, entry_at None iterable p = Some (Some token, v)) ∧
       entry_at None iterable <$> ps
       = (λ v, Some (Some token, v)) <$> fetch iterable token) ∧
  fetch (JDict [("a", JDict [("b", JDict [("a", JNum 1)])]);
                ("c", JList [JDict [("a", JNum 2)]])]) "a"
  = [JDict [("b", JDict [("a", JNum 1)])]; JNum 1; JNum 2].
Proof.
  split; [|reflexivity].
  intros iterable token. exists (match_paths token iterable).
  split; [apply match_paths_sorted|]. split.
  - intros p. rewrite (elem_of_match_paths token iterable None). split.
    + by intros [_ Hv].
    + intros [v Hv]. split; [|by exists v]. intros ->. by simpl in Hv.
  - apply match_paths_values.
Qed.

(** ** multisub *)

Lemma starts_with_app (k rest : str) : starts_with k (k ++ rest) = true.
Proof. induction k as [|c k IH]; simpl; [done|]. by rewrite bool_decide_eq_true_2. Qed.

Lemma starts_with_inv (k s : str) :
  starts_with k s = true → ∃ tail, s = k ++ tail.
Proof.
  revert s. induction k as [|c k IH]; intros s Hs; simpl in *.
  - by exists s.
  - destruct s as [|d s]; [done|].
    apply andb_true_iff in Hs as [Hc Hs]. apply bool_decide_eq_true in Hc as ->.
    destruct (IH s Hs) as [tail ->]. by exists tail.
Qed.

Lemma match_here_first_key (characters : list (str * str)) rest (must_advance : bool) :
  Forall (λ kv, kv.1 ≠ []) characters →
  match_here characters.*1 rest must_advance
  = (λ kv, length kv.1) <$> first_key characters rest.
Proof.
  induction 1 as [|[k v] more Hk _ IH]; simpl in *; [done|].
  rewrite (bool_decide_eq_false_2 _ Hk), andb_false_r, andb_true_r.
  by destruct (starts_with k rest).
Qed.

Lemma first_key_end (characters : list (str * str)) :
  Forall (λ kv, kv.1 ≠ []) characters → first_key characters [] = None.
Proof.
  induction 1 as [|[k v] more Hk _ IH]; simpl in *; [done|].
  by destruct k.
Qed.

(** The loop always comes to an end within the rounds [multisub] allows:
    each round either moves on in the text or turns [must_advance] on. *)
Lemma match_here_bound (alts : list str) (rest : str) (must_advance : bool) (n : nat) :
  match_here alts rest must_advance = Some n →
  (n ≤ length rest)%nat ∧ (must_advance = true → (0 < n)%nat).
Proof.
  induction alts as [|k alts IH]; simpl; [done|].
  destruct (starts_with k rest && negb (must_advance && bool_decide (k = [])))
    eqn:Hk; [|done].
  intros [= <-]. apply andb_true_iff in Hk as [Hstart Hadv].
  destruct (starts_with_inv _ _ Hstart) as [tail ->]. split.
  - rewrite length_app. lia.
  - intros ->. simpl in Hadv. apply negb_true_iff, bool_decide_eq_false in Hadv.
    destruct k; [done | simpl; lia].
Qed.

Lemma search_bound (alts : list str) (rest : str) (pos : nat) (must_advance : bool)
    (b e : nat) :
  search alts rest pos must_advance = Some (b, e) →
  (pos ≤ b)%nat ∧ (b ≤ e)%nat ∧ (e ≤ pos + length rest)%nat ∧
  (must_advance = true → b = pos → (b < e)%nat).
Proof.
  assert (Hhere : ∀ rest pos must_advance n,
            match_here alts rest must_advance = Some n →
            (pos ≤ pos)%nat ∧ (pos ≤ pos + n)%nat ∧
            (pos + n ≤ pos + length rest)%nat ∧
            (must_advance = true → pos = pos → (pos < pos + n)%nat)).
  { intros rest' pos' must' n' [Hle Hadv]%match_here_bound.
    repeat split; try lia. intros Hm _. specialize (Hadv Hm). lia. }
  revert pos must_advance.
  induction rest as [|c rest IH]; intros pos must_advance; cbn [search];
    destruct (match_here alts _ must_advance) as [n|] eqn:Hn.
  - intros [= <- <-]. by eapply Hhere.
  - done.
  - intros [= <- <-]. by eapply Hhere.
  - intros (H1 & H2 & H3 & _)%IH. simpl. repeat split; lia.
Qed.

Lemma sub_loop_terminates (alts : list str) (characters : list (str * str))
    (string : str) (fuel pos : nat) (must_advance : bool) :
  (pos ≤ length string)%nat →
  (2 * (length string - pos) + (if must_advance then 0 else 1) < fuel)%nat →
  sub_loop alts characters string fuel pos must_advance ≠ None.
Proof.
  revert pos must_advance.
  induction fuel as [|fuel IH]; intros pos must_advance Hpos Hfuel; [lia|].
  cbn [sub_loop].
  destruct (search alts (drop pos string) pos must_advance) as [[b e]|] eqn:Hs;
    [|done].
  apply search_bound in Hs as (H1 & H2 & H3 & H4). rewrite length_drop in H3.
  destruct (items_get characters _) as [replacement|]; [|done].
  assert (sub_loop alts characters string fuel e (bool_decide (e = b)) ≠ None) as Hrec.
  { apply IH; [lia|]. case_bool_decide; destruct must_advance; lia. }
  by destruct (sub_loop alts characters string fuel e (bool_decide (e = b)))
    as [[out|err]|].
Qed.

Lemma multisub_terminates (characters : list (str * str)) (string : str) :
  multisub characters string ≠ None.
Proof. apply sub_loop_terminates; simpl; lia. Qed.

Section multisub.
Variable characters : list (str * str).

Lemma first_key_Some rest k v :
  first_key characters rest = Some (k, v) →
  starts_with k rest = true ∧ (k, v) ∈ characters ∧ items_get characters k = Some v.
Proof.
  induction characters as [|[k' v'] more IH]; simpl; [done|].
  destruct (starts_with k' rest) eqn:Hk'.
  - intros [= -> ->]. split; [done|]. split; [by left|]. by rewrite decide_True.
  - intros (Hk & Hin & Hget)%IH. split; [done|]. split; [by right|].
    rewrite decide_False; [done|]. intros ->. congruence.
Qed.

Lemma single_pass_unique s out1 out2 :
  single_pass characters s out1 → single_pass characters s out2 → out1 = out2.
Proof.
  intros H1. revert out2.
  induction H1 as [Hend|v Hend|k v rest out Hk Hne _ IH|c rest v out Hk _ IH
                  |c rest out Hk _ IH];
    intros out2 H2; inversion H2 as [Hend2|v2 Hend2|k2 v2 rest2 o2 Hk2 Hne2 Hp2 Heq
                                    |c2 rest2 v2 o2 Hk2 Hp2|c2 rest2 o2 Hk2 Hp2];
    subst; try congruence.
  - rewrite Heq, Hk in Hk2. injection Hk2 as <- <-.
    apply app_inv_head in Heq as ->. f_equal. by apply IH.
  - assert (v2 = v) as -> by congruence. do 2 f_equal. by apply IH.
  - f_equal. by apply IH.
Qed.

Hypothesis keys_nonempty : Forall (λ kv, kv.1 ≠ []) characters.

Lemma search_None rest (pos : nat) :
  search characters.*1 rest pos false = None → single_pass characters rest rest.
Proof.
  revert pos. induction rest as [|c rest IH]; intros pos; simpl;
    rewrite match_here_first_key by done.
  - intros _. by apply pass_end, first_key_end.
  - destruct (first_key characters (c :: rest)) as [kv|] eqn:Hk; simpl; [done|].
    intros Hs. apply pass_keep; [done|]. by eapply IH.
Qed.

Lemma search_Some rest (pos b e : nat) :
  search characters.*1 rest pos false = Some (b, e) →
  ∃ skipped k v tail,
    rest = skipped ++ k ++ tail ∧
    b = (pos + length skipped)%nat ∧ e = (b + length k)%nat ∧
    first_key characters (k ++ tail) = Some (k, v) ∧
    ∀ out, single_pass characters (k ++ tail) out →
           single_pass characters rest (skipped ++ out).
Proof.
  revert pos. induction rest as [|c rest IH]; intros pos;
    cbn [search]; rewrite match_here_first_key by done.
  - by rewrite first_key_end.
  - destruct (first_key characters (c :: rest)) as [[k v]|] eqn:Hk; simpl.
    + intros [= <- <-].
      destruct (first_key_Some _ _ _ Hk) as (Hstart & _ & _).
      destruct (starts_with_inv _ _ Hstart) as [tail Htail].
      exists [], k, v, tail. rewrite <- Htail. simpl.
      split; [done|]. split; [lia|]. split; [lia|]. done.
    + intros (skipped & k & v & tail & -> & -> & -> & Hfirst & Hpass)%IH.
      exists (c :: skipped), k, v, tail. simpl.
      split; [done|]. split; [lia|]. split; [lia|]. split; [done|].
      intros out Hout. apply pass_keep; [done|]. by apply Hpass.
Qed.

Lemma sub_loop_single_pass (string : str) (fuel pos : nat) :
  (pos ≤ length string)%nat → (length string - pos < fuel)%nat →
  ∃ out,
    sub_loop characters.*1 characters string fuel pos false = Some (Ok out) ∧
    single_pass characters (drop pos string) out.
Proof.
  revert pos. induction fuel as [|fuel IH]; intros pos Hpos Hfuel; [lia|].
  cbn [sub_loop].
  destruct (search characters.*1 (drop pos string) pos false) as [[b e]|] eqn:Hs.
  - apply search_Some in Hs
      as (skipped & k & v & tail & Hrest & -> & -> & Hfirst & Hpass).
    destruct (first_key_Some _ _ _ Hfirst) as (_ & Hin & Hget).
    assert (Hk : k ≠ []).
    { rewrite Forall_forall in keys_nonempty. apply (keys_nonempty _ Hin). }
    assert (Hlen : (length string - pos = length skipped + (length k + length tail))%nat).
    { rewrite <- length_drop, Hrest, !length_app. lia. }
    assert (Hdrop : drop (pos + length skipped) string = k ++ tail).
    { rewrite <- drop_drop, Hrest. by rewrite drop_app_length. }
    assert (Htail : drop (pos + length skipped + length k) string = tail).
    { rewrite <- drop_drop, Hdrop. by rewrite drop_app_length. }
    replace (pos + length skipped + length k - (pos + length skipped))%nat
      with (length k) by lia.
    rewrite Hdrop, take_app_length, Hget.
    rewrite bool_decide_eq_false_2
      by (destruct k; [done | simpl; lia]).
    destruct (IH (pos + length skipped + length k)%nat) as (out & -> & Hout);
      [lia | destruct k; [done | simpl in *; lia] |].
    eexists. split; [done|].
    replace (pos + length skipped - pos)%nat with (length skipped) by lia.
    assert (take (length skipped) (drop pos string) = skipped) as ->
      by (by rewrite Hrest, take_app_length).
    apply Hpass. apply pass_replace; [done | done |].
    by rewrite <- Htail.
  - eexists. split; [done|]. by eapply search_None.
Qed.
End multisub.

(** C5 (for a mapping without an empty key): whenever [multisub] returns,
    its result is that of the single left-to-right pass in which, at each
    position, the first key of the mapping occurring there is replaced and
    the replacement is not scanned again, and that result is unique; and
    [multisub] does return whenever the mapping has at least one key.  In
    particular [multisub({"a": "1", "b": "2"}, "abc")] is ["12c"]. *)
Theorem multisub_single_pass :
  (∀ (characters : list (str * str)) (string : str),
     Forall (λ kv, kv.1 ≠ []) characters →
     (characters ≠ [] → ∃ out, multisub characters string = Some (Ok out)) ∧
     (∀ out, multisub characters string = Some (Ok out) →
        single_pass characters string out ∧
        ∀ out', single_pass characters string out' → out' = out)) ∧
  multisub [(pystr "a", pystr "1"); (pystr "b", pystr "2")] (pystr "abc")
  = Some (Ok (pystr "12c")).
Proof.
  split; [|reflexivity].
  intros characters string Hkeys.
  destruct (decide (characters = [])) as [->|Hne].
  - split; [done|]. intros out Hout. exfalso. revert Hout. unfold multisub.
    replace (2 * length string + 2)%nat with (S (2 * length string + 1)) by lia.
    by destruct string.
  - assert (∃ out, multisub characters string = Some (Ok out) ∧
                   single_pass characters string out) as (out & Hout & Hpass).
    { unfold multisub.
      assert (alternatives characters.*1 = characters.*1) as ->
        by (by destruct characters).
      destruct (sub_loop_single_pass characters Hkeys string
                  (2 * length string + 2) 0) as (out & Hout & Hpass); [lia..|].
      by exists out. }
    split; [by exists out|].
    intros out' Hout'. rewrite Hout in Hout'. injection Hout' as <-.
    split; [done|]. intros out' Hout'. by eapply single_pass_unique.
Qed.

Lemma multisub_single_pass_witness :
  ∃ out,
    multisub [(pystr "a", pystr "b"); (pystr "b", pystr "c")] (pystr "ab") = Some (Ok out) ∧
    single_pass [(pystr "a", pystr "b"); (pystr "b", pystr "c")] (pystr "ab") out ∧
    ∀ out', single_pass [(pystr "a", pystr "b"); (pystr "b", pystr "c")] (pystr "ab") out'
            → out' = out.
Proof.
  destruct multisub_single_pass as [Hgen _].
  destruct (Hgen [(pystr "a", pystr "b"); (pystr "b", pystr "c")] (pystr "ab"))
    as [Hreturns Hresult].
  - repeat constructor; simpl; discriminate.
  - destruct Hreturns as [out Hout]; [discriminate|].
    exists out. split; [done|]. by apply Hresult.
Defined.

(** Replacement text is not scanned again: the [b] put in for [a] stays. *)
Example multisub_no_rescan :
  multisub [(pystr "a", pystr "b"); (pystr "b", pystr "c")] (pystr "ab")
  = Some (Ok (pystr "bc")).
Proof. reflexivity. Qed.

(** With the empty key ahead of the key [a], the empty key is the first
    match at every position of ["ab"], so the pass in which the first match
    wins at each position gives ["-a-b-"].  [multisub] returns ["-1-b-"]:
    behind an empty match the pattern is tried again at the same position,
    and [a] is replaced there as well. *)
Lemma multisub_empty_key_counterexample :
  multisub [([], pystr "-"); (pystr "a", pystr "1")] (pystr "ab")
  = Some (Ok (pystr "-1-b-")) ∧
  single_pass [([], pystr "-"); (pystr "a", pystr "1")] (pystr "ab") (pystr "-a-b-") ∧
  ¬ ∃ out,
      multisub [([], pystr "-"); (pystr "a", pystr "1")] (pystr "ab") = Some (Ok out) ∧
      single_pass [([], pystr "-"); (pystr "a", pystr "1")] (pystr "ab") out.
Proof.
  assert (Hspec : single_pass [([], pystr "-"); (pystr "a", pystr "1")]
                    (pystr "ab") (pystr "-a-b-")).
  { apply (pass_insert _ _ _ (pystr "-")); [reflexivity|].
    apply (pass_insert _ _ _ (pystr "-")); [reflexivity|].
    apply pass_end_insert. reflexivity. }
  split; [reflexivity|]. split; [done|].
  intros (out & Hout & Hpass). vm_compute in Hout. injection Hout as <-.
  pose proof (single_pass_unique _ _ _ _ Hpass Hspec) as Heq.
  vm_compute in Heq. discriminate.
Qed.

(** C9 (as the code behaves): with an empty mapping the pattern is empty,
    it matches the empty text at position 0, and looking that match up in
    the mapping raises [KeyError], whatever the subject text. *)
Theorem multisub_empty_mapping_raises (string : str) :
  multisub [] string = Some (Raise KeyError).
Proof.
  unfold multisub.
  replace (2 * length string + 2)%nat with (S (2 * length string + 1)) by lia.
  by destruct string.
Qed.

(** * Further properties *)

(** ** CustomDict.set, continued *)

Section custom_dict_more.
Context {V : Type}.
Implicit Types (m : gmap key V) (kwargs : list (string * V)).

(** The keyword arguments as a mapping of their own. *)
Lemma lookup_kwargs_map kwargs (k : key) :
  (list_to_map ((λ kv, (inl kv.1, kv.2)) <$> kwargs) : gmap key V) !! k
  = match k with
    | inl s => items_get kwargs s
    | inr _ => None
    end.
Proof.
  induction kwargs as [|[k' v'] kwargs IH].
  - simpl. rewrite lookup_empty. by destruct k.
  - rewrite fmap_cons, list_to_map_cons, lookup_insert. simpl.
    case_decide as Heq.
    + subst k. by rewrite decide_True.
    + rewrite IH. destruct k as [s|z]; [|done].
      rewrite decide_False; [done | congruence].
Qed.

Lemma set_union m kwargs :
  foldl set_item m kwargs = m ∪ list_to_map ((λ kv, (inl kv.1, kv.2)) <$> kwargs).
Proof.
  apply map_eq. intros k.
  rewrite set_lookup, lookup_union, lookup_kwargs_map.
  destruct (m !! k) as [v|]; simpl.
  - by destruct k as [s|z]; [destruct (items_get kwargs s)|].
  - by destruct k as [s|z]; [destruct (items_get kwargs s)|].
Qed.

(** [set] is the union of the mapping with the keyword arguments in which
    the mapping takes precedence. *)
Theorem set_is_left_union m assign kwargs :
  (CustomDict_set m assign kwargs).1
  = m ∪ list_to_map ((λ kv, (inl kv.1, kv.2)) <$> kwargs).
Proof. apply set_union. Qed.

(** Calling [set] a second time with the same keyword arguments changes
    nothing. *)
Theorem set_idempotent m assign assign' kwargs :
  (CustomDict_set (CustomDict_set m assign kwargs).1 assign' kwargs).1
  = (CustomDict_set m assign kwargs).1.
Proof.
  apply map_eq. intros k. simpl. rewrite !set_lookup.
  destruct (m !! k) as [v|]; [done|].
  destruct k as [s|z]; [|done]. by destruct (items_get kwargs s).
Qed.

(** The keys after [set] are the keys before it together with the names of
    the keyword arguments: no key is ever removed. *)
Theorem set_keys m assign kwargs :
  dom (CustomDict_set m assign kwargs).1
  = dom m ∪ list_to_set (inl <$> kwargs.*1).
Proof.
  simpl. rewrite set_union, dom_union_L, dom_list_to_map_L.
  do 2 f_equal. rewrite <- !list_fmap_compose. by apply list_fmap_ext.
Qed.
End custom_dict_more.

(** ** chunks, continued *)

Section chunks_more.
Context {A : Type}.
Implicit Types (s : list A) (n : Z).

Lemma range_length_ceil (L n : Z) :
  0 ≤ L → 0 < n → range_length 0 L n = (L + n - 1) / n.
Proof.
  intros HL Hn. unfold range_length.
  destruct (Z.ltb_spec 0 n); [|lia].
  destruct (Z.ltb_spec 0 L) as [Hpos|Hzero].
  - replace (L - 0 - 1) with (L - 1) by lia.
    replace (L + n - 1) with (L - 1 + 1 * n) by lia.
    by rewrite Z.div_add by lia.
  - assert (L = 0) as -> by lia. symmetry. apply Z.div_small. lia.
Qed.

Lemma chunks_concat s n :
  0 < n → ∃ cs, chunks s n = Ok cs ∧ concat cs = s.
Proof.
  intros Hn. eexists. split; [by apply chunks_unfold|].
  rewrite concat_chunks. apply take_ge.
  pose proof (range_length_chunks (Z.of_nat (length s)) n ltac:(lia) Hn)
    as (Hc0 & Hcover & _).
  nia.
Qed.

(** For a positive size, [chunks] yields the length divided by the size,
    rounded up, chunks. *)
Theorem chunks_count s n :
  0 < n →
  ∃ cs, chunks s n = Ok cs ∧
        Z.of_nat (length cs) = (Z.of_nat (length s) + n - 1) / n.
Proof.
  intros Hn. eexists. split; [by apply chunks_unfold|].
  rewrite length_fmap, length_seq, Z2Nat.id.
  - apply range_length_ceil; lia.
  - rewrite range_length_ceil by lia. apply Z.div_pos; lia.
Qed.

(** Element [j] of chunk [i] is element [i * size + j] of the sequence. *)
Theorem chunks_lookup s n cs (i j : nat) c :
  0 < n → chunks s n = Ok cs → cs !! i = Some c → (j < Z.to_nat n)%nat →
  c !! j = s !! (i * Z.to_nat n + j)%nat.
Proof.
  intros Hn Hcs Hi Hj. rewrite chunks_unfold in Hcs by done.
  injection Hcs as <-. rewrite list_lookup_fmap in Hi.
  destruct (seq 0 _ !! i) as [k|] eqn:Hk; [|done].
  apply lookup_seq in Hk as [-> _]. simpl in Hi. injection Hi as <-.
  by rewrite lookup_take_lt, lookup_drop.
Qed.

(** For a positive size, no chunk is yielded exactly when the sequence is
    empty. *)
Theorem chunks_none_iff_empty s n :
  0 < n → (chunks s n = Ok [] ↔ s = []).
Proof.
  intros Hn. split.
  - intros Hcs.
    destruct (chunks_concat s n Hn) as (cs & Hcs' & Hconcat).
    rewrite Hcs in Hcs'. injection Hcs' as <-. by rewrite <- Hconcat.
  - intros ->. rewrite chunks_unfold by done. simpl length.
    rewrite range_length_ceil by lia. by rewrite Z.div_small by lia.
Qed.
End chunks_more.

Section chunks_compose.
Context {A : Type}.
Implicit Types (s : list A) (n : Z).

(** A sequence no longer than the size comes back as one chunk. *)
Theorem chunks_single s n :
  0 < Z.of_nat (length s) ≤ n → chunks s n = Ok [s].
Proof.
  intros [Hpos Hle]. rewrite chunks_unfold by lia.
  rewrite range_length_ceil by lia.
  replace (Z.of_nat (length s) + n - 1) with (Z.of_nat (length s) - 1 + 1 * n) by lia.
  rewrite Z.div_add by lia. rewrite Z.div_small by lia. simpl.
  rewrite drop_0. by rewrite take_ge by lia.
Qed.

Lemma flatten_scalars (l : list A) : flatten (Scalar <$> l) = l.
Proof. induction l as [|a l IH]; simpl; [done|]. by f_equal. Qed.

Lemma flatten_lists_of_scalars (cs : list (list A)) :
  flatten ((λ c, Seq KList (Scalar <$> c)) <$> cs) = concat cs.
Proof.
  induction cs as [|c cs IH]; [done|].
  rewrite fmap_cons, flatten_cons_seq, flatten_scalars, IH. done.
Qed.

(** [flatten] undoes [chunks]: flattening the list of chunks gives the
    sequence back. *)
Theorem flatten_chunks s n cs :
  0 < n → chunks s n = Ok cs →
  flatten ((λ c, Seq KList (Scalar <$> c)) <$> cs) = s.
Proof.
  intros Hn Hcs. rewrite flatten_lists_of_scalars.
  destruct (chunks_concat s n Hn) as (cs' & Hcs' & Hconcat). congruence.
Qed.

(** [nth] on the chunks, for an index below [sys.maxsize]: chunk [i] is the
    slice starting at [i * size], and asking for a chunk past the end of
    the sequence raises [StopIteration]. *)
Theorem nth_chunks (maxsize : Z) s n cs (i : Z) :
  0 < n → 0 ≤ i < maxsize → chunks s n = Ok cs →
  (nth list_next maxsize cs i).1
  = if decide (i * n < Z.of_nat (length s))
    then Ok (py_slice s (Some (i * n)) (Some (i * n + n)))
    else Raise StopIteration.
Proof.
  intros Hn Hi Hcs. rewrite nth_list by done.
  rewrite chunks_unfold in Hcs by done. injection Hcs as <-.
  pose proof (range_length_chunks (Z.of_nat (length s)) n ltac:(lia) Hn)
    as (Hc0 & Hcover & Hlast).
  rewrite list_lookup_fmap.
  destruct (decide (i < range_length 0 (Z.of_nat (length s)) n)) as [Hlt|Hge].
  - rewrite lookup_seq_lt by lia. simpl.
    rewrite decide_True by nia. f_equal.
    rewrite py_slice_nonneg by nia. f_equal; [lia|]. f_equal. nia.
  - rewrite lookup_seq_ge by lia. simpl. rewrite decide_False; [done | nia].
Qed.
End chunks_compose.

Lemma chunks_count_witness :
  ∃ cs, chunks [1; 2; 3; 4; 5] 2 = Ok cs ∧
        Z.of_nat (length cs) = (Z.of_nat (length [1; 2; 3; 4; 5]) + 2 - 1) / 2.
Proof. apply (chunks_count [1; 2; 3; 4; 5] 2). lia. Defined.

Lemma chunks_lookup_witness :
  [3; 4] !! 1%nat = [1; 2; 3; 4; 5] !! (1 * Z.to_nat 2 + 1)%nat.
Proof.
  apply (chunks_lookup [1; 2; 3; 4; 5] 2 [[1; 2]; [3; 4]; [5]] 1 1 [3; 4]);
    [lia | reflexivity | reflexivity | simpl; lia].
Defined.

Lemma chunks_none_iff_empty_witness :
  chunks (@nil Z) 3 = Ok [] ↔ @nil Z = [].
Proof. apply (chunks_none_iff_empty (@nil Z) 3). lia. Defined.

Lemma chunks_single_witness : chunks [1; 2] 5 = Ok [[1; 2]].
Proof. apply (chunks_single [1; 2] 5). simpl. lia. Defined.

Lemma flatten_chunks_witness :
  flatten ((λ c, Seq KList (Scalar <$> c)) <$> [[1; 2]; [3]]) = [1; 2; 3].
Proof. apply (flatten_chunks [1; 2; 3] 2 [[1; 2]; [3]]); [lia | reflexivity]. Defined.

Lemma nth_chunks_witness :
  (nth list_next maxsize_64bit [[1; 2]; [3]] 1).1
  = if decide (1 * 2 < Z.of_nat (length [1; 2; 3]))
    then Ok (py_slice [1; 2; 3] (Some (1 * 2)) (Some (1 * 2 + 2)))
    else Raise StopIteration.
Proof.
  apply (nth_chunks maxsize_64bit [1; 2; 3] 2 [[1; 2]; [3]] 1);
    [lia | unfold maxsize_64bit; lia | reflexivity].
Defined.

(** ** flatten, continued *)

Section flatten_more.
Context {A : Type}.
Implicit Types (iterable : list (item A)).

(** Flattening a concatenation is concatenating the flattenings. *)
Theorem flatten_app iterable1 iterable2 :
  flatten (iterable1 ++ iterable2) = flatten iterable1 ++ flatten iterable2.
Proof. apply flat_map_app. Qed.

(** A sequence of scalars only is yielded as it is, so that flattening the
    result of [flatten] again changes nothing. *)
Theorem flatten_idempotent iterable (l : list A) :
  flatten (Scalar <$> l) = l ∧
  flatten (Scalar <$> flatten iterable) = flatten iterable.
Proof. split; apply flatten_scalars. Qed.

End flatten_more.

(** ** nth, continued *)

Section nth_more.
Context {A St : Type} (next : St → option (A * St)).

Lemma consume_add (a b : nat) (it : St) :
  consume next (a + b) it
  = let '(it', complete) := consume next a it in
    if complete then consume next b it' else (it', false).
Proof.
  revert it. induction a as [|a IH]; intros it; simpl; [done|].
  destruct (next it) as [[x it']|]; [apply IH | done].
Qed.

Lemma consume_incomplete (n : nat) (it it' : St) :
  consume next n it = (it', false) → next it' = None.
Proof.
  revert it. induction n as [|n IH]; intros it; simpl; [done|].
  destruct (next it) as [[x it1]|] eqn:Hnext; [apply IH|].
  by intros [= <-].
Qed.

(** After [nth] has returned the element at [i], a further call with [j]
    returns what a single call with [i + 1 + j] would have returned, as long
    as that index is below [sys.maxsize]: the elements up to and including
    [i] are gone from the iterator. *)
Theorem nth_then_nth (maxsize : Z) (it : St) (i j : Z) x :
  0 ≤ i → 0 ≤ j → i + 1 + j < maxsize →
  (nth next maxsize it i).1 = Ok x →
  nth next maxsize (nth next maxsize it i).2 j = nth next maxsize it (i + 1 + j).
Proof.
  intros Hi Hj Hmax. unfold nth.
  rewrite (islice_bounds_ok_true maxsize i), (islice_bounds_ok_true maxsize j),
    (islice_bounds_ok_true maxsize (i + 1 + j)) by lia.
  replace (Z.to_nat (i + 1 + j)) with (Z.to_nat i + S (Z.to_nat j))%nat by lia.
  rewrite consume_add.
  destruct (consume next (Z.to_nat i) it) as [it1 [|]]; [|done].
  simpl. destruct (next it1) as [[y it2]|]; [|done]. done.
Qed.

(** When [nth] raises [StopIteration] the iterator is left exhausted, and
    every later call with an index that [islice] accepts raises
    [StopIteration] too. *)
Theorem nth_failure_exhausts (maxsize : Z) (it : St) (i : Z) :
  (nth next maxsize it i).1 = Raise StopIteration →
  next (nth next maxsize it i).2 = None ∧
  ∀ j, 0 ≤ j < maxsize →
    nth next maxsize (nth next maxsize it i).2 j
    = (Raise StopIteration, (nth next maxsize it i).2).
Proof.
  intros Hfail.
  assert (Hend : next (nth next maxsize it i).2 = None).
  { revert Hfail. unfold nth.
    destruct (islice_bounds_ok maxsize i (i + 1)); [|done].
    destruct (consume next (Z.to_nat i) it) as [it1 [|]] eqn:Hc.
    - by destruct (next it1) as [[y it2]|] eqn:Hnext.
    - intros _. simpl. by eapply consume_incomplete. }
  split; [done|]. intros j Hj.
  apply (nth_exhausted next maxsize _ [] _ j); [constructor | done | simpl; lia | lia].
Qed.
End nth_more.

(** On a list and for an index from [0] up to, but not including,
    [sys.maxsize], [nth] is indexing: it returns [l[index]] and leaves the
    iterator just behind that element, or raises [StopIteration] and leaves
    it empty when the index is past the end. *)
Theorem nth_list_indexing {A : Type} (maxsize : Z) (l : list A) (index : Z) :
  0 ≤ index < maxsize →
  nth list_next maxsize l index =
    match l !! Z.to_nat index with
    | Some x => (Ok x, drop (S (Z.to_nat index)) l)
    | None => (Raise StopIteration, [])
    end.
Proof. apply nth_list. Qed.

Lemma nth_list_indexing_witness :
  nth list_next maxsize_64bit [10; 20; 30] 2 = (Ok 30, []) ∧
  nth list_next maxsize_64bit [10; 20; 30] 3 = (Raise StopIteration, []).
Proof.
  split.
  - apply (nth_list_indexing maxsize_64bit [10; 20; 30] 2). unfold maxsize_64bit. lia.
  - apply (nth_list_indexing maxsize_64bit [10; 20; 30] 3). unfold maxsize_64bit. lia.
Defined.

Lemma nth_then_nth_witness :
  nth list_next maxsize_64bit (nth list_next maxsize_64bit [10; 20; 30; 40] 1).2 1
  = nth list_next maxsize_64bit [10; 20; 30; 40] 3.
Proof.
  apply (nth_then_nth list_next maxsize_64bit [10; 20; 30; 40] 1 1 20);
    [lia | lia | unfold maxsize_64bit; lia | reflexivity].
Defined.

Lemma nth_failure_exhausts_witness :
  list_next (nth list_next maxsize_64bit [10; 20] 5).2 = None ∧
  ∀ j, 0 ≤ j < maxsize_64bit →
    nth list_next maxsize_64bit (nth list_next maxsize_64bit [10; 20] 5).2 j
    = (Raise StopIteration, (nth list_next maxsize_64bit [10; 20] 5).2).
Proof.
  apply (nth_failure_exhausts list_next maxsize_64bit [10; 20] 5). reflexivity.
Defined.

(** ** fetch, continued *)

Lemma filter_flat_map {X B : Type} (P : B → Prop) `{∀ b, Decision (P b)}
    (f : X → list B) (l : list X) :
  filter P (flat_map f l) = flat_map (λ x, filter P (f x)) l.
Proof. induction l as [|x l IH]; simpl; [done|]. by rewrite filter_app, IH. Qed.

Lemma fetch_filter_entries (iterable : json) (token : string) :
  fetch iterable token
  = (filter (λ kv, kv.1 = token) (all_entries iterable)).*2.
Proof.
  induction iterable as [| | | |items IH|entries IH] using json_nested_ind;
    simpl; try done.
  - rewrite filter_flat_map, fmap_flat_map. apply flat_map_Forall_ext.
    eapply Forall_impl; [exact IH|]. intros y Hy. simpl.
    by rewrite fetch_guard.
  - rewrite filter_flat_map, fmap_flat_map. apply flat_map_Forall_ext.
    eapply Forall_impl; [exact IH|]. intros [key value] Hvalue. simpl in *.
    rewrite fetch_guard, Hvalue, filter_cons. simpl.
    by case_decide.
Qed.

(** [fetch] yields the values of the entries whose key is the token, among
    all entries at any depth and in their order; a key that occurs several
    times is yielded each time. *)
Theorem fetch_as_filter (iterable : json) (token : string) :
  fetch iterable token
  = (filter (λ kv, kv.1 = token) (all_entries iterable)).*2.
Proof. apply fetch_filter_entries. Qed.

(** [fetch] yields nothing exactly when the token is the key of no entry,
    at any depth. *)
Theorem fetch_nothing_iff_absent (iterable : json) (token : string) :
  fetch iterable token = [] ↔ token ∉ (all_entries iterable).*1.
Proof.
  rewrite fetch_filter_entries.
  induction (all_entries iterable) as [|[key value] l IH]; simpl.
  - split; [intros _; apply not_elem_of_nil | done].
  - rewrite filter_cons, not_elem_of_cons. simpl. case_decide as Hkey.
    + split; [done | intros [Hne _]; by subst].
    + rewrite IH. split; [intros Hl; split; [congruence | done] | by intros [_ Hl]].
Qed.

(** ** multisub, continued *)

Lemma match_here_in (alts : list str) (rest : str) (must_advance : bool) (n : nat) :
  match_here alts rest must_advance = Some n → take n rest ∈ alts.
Proof.
  induction alts as [|k alts IH]; simpl; [done|].
  destruct (starts_with k rest && negb (must_advance && bool_decide (k = [])))
    eqn:Hk.
  - intros [= <-]. apply andb_true_iff in Hk as [Hstart _].
    destruct (starts_with_inv _ _ Hstart) as [tail ->].
    rewrite take_app_length. by left.
  - intros Hn. right. by apply IH.
Qed.

Lemma search_in (alts : list str) (rest : str) (pos : nat) (must_advance : bool)
    (b e : nat) :
  search alts rest pos must_advance = Some (b, e) →
  (pos ≤ b)%nat ∧ take (e - b) (drop (b - pos) rest) ∈ alts.
Proof.
  revert pos must_advance.
  induction rest as [|c rest IH]; intros pos must_advance; cbn [search];
    destruct (match_here alts _ must_advance) as [n|] eqn:Hn.
  - intros [= <- <-]. split; [done|]. apply match_here_in in Hn.
    replace (pos + n - pos)%nat with n by lia.
    replace (pos - pos)%nat with 0%nat by lia. by rewrite drop_0.
  - done.
  - intros [= <- <-]. split; [done|]. apply match_here_in in Hn.
    replace (pos + n - pos)%nat with n by lia.
    replace (pos - pos)%nat with 0%nat by lia. by rewrite drop_0.
  - intros [Hle Hin]%IH. split; [lia|].
    by replace (b - pos)%nat with (S (b - S pos)) by lia.
Qed.

Lemma items_get_is_Some {K V : Type} `{EqDecision K} (entries : list (K * V)) (k : K) :
  k ∈ entries.*1 → is_Some (items_get entries k).
Proof.
  induction entries as [|[k' v'] entries IH]; simpl.
  - by intros ?%elem_of_nil.
  - intros Hin. case_decide; [by eexists|].
    apply elem_of_cons in Hin as [->|Hin]; [done | by apply IH].
Qed.

Lemma items_get_Some_elem {K V : Type} `{EqDecision K} (entries : list (K * V)) (k : K) v :
  items_get entries k = Some v → (k, v) ∈ entries.
Proof.
  induction entries as [|[k' v'] entries IH]; simpl; [done|].
  case_decide as Hk.
  - intros [= ->]. subst. by left.
  - intros Hget. right. by apply IH.
Qed.

Lemma sub_loop_keys_ok (characters : list (str * str)) (string : str)
    (fuel pos : nat) (must_advance : bool) :
  (pos ≤ length string)%nat →
  (2 * (length string - pos) + (if must_advance then 0 else 1) < fuel)%nat →
  ∃ out, sub_loop characters.*1 characters string fuel pos must_advance = Some (Ok out).
Proof.
  revert pos must_advance.
  induction fuel as [|fuel IH]; intros pos must_advance Hpos Hfuel; [lia|].
  cbn [sub_loop].
  destruct (search characters.*1 (drop pos string) pos must_advance) as [[b e]|] eqn:Hs;
    [|by eexists].
  pose proof (search_in _ _ _ _ _ _ Hs) as [Hle Hin].
  apply search_bound in Hs as (H1 & H2 & H3 & H4). rewrite length_drop in H3.
  rewrite drop_drop in Hin. replace (pos + (b - pos))%nat with b in Hin by lia.
  destruct (items_get_is_Some _ _ Hin) as [replacement ->].
  destruct (IH e (bool_decide (e = b))) as [out ->];
    [lia | case_bool_decide; destruct must_advance; lia |].
  by eexists.
Qed.

(** With at least one key in the mapping [multisub] never fails: what the
    pattern matches is always a key, so the lookup succeeds (empty keys
    included). *)
Theorem multisub_succeeds (characters : list (str * str)) (string : str) :
  characters ≠ [] → ∃ out, multisub characters string = Some (Ok out).
Proof.
  intros Hne. unfold multisub.
  assert (alternatives characters.*1 = characters.*1) as ->
    by (by destruct characters).
  apply sub_loop_keys_ok; simpl; lia.
Qed.

Lemma multisub_succeeds_witness :
  ∃ out, multisub [([], pystr "-"); (pystr "a", pystr "1")] (pystr "ab") = Some (Ok out).
Proof.
  apply (multisub_succeeds [([], pystr "-"); (pystr "a", pystr "1")] (pystr "ab")).
  discriminate.
Defined.

Section multisub_more.
Variable characters : list (str * str).
Hypothesis mapping_nonempty : characters ≠ [].
Hypothesis keys_nonempty : Forall (λ kv, kv.1 ≠ []) characters.

(** Under the two hypotheses [multisub] returns the result of the pass. *)
Lemma multisub_pass (string out : str) :
  single_pass characters string out → multisub characters string = Some (Ok out).
Proof.
  intros Hpass. unfold multisub.
  assert (alternatives characters.*1 = characters.*1) as ->
    by (by destruct characters).
  destruct (sub_loop_single_pass characters keys_nonempty string
              (2 * length string + 2) 0) as (out' & -> & Hpass'); [lia..|].
  do 2 f_equal. by eapply single_pass_unique.
Qed.

Lemma first_key_None (rest : str) :
  (∀ k, k ∈ characters.*1 → starts_with k rest = false) →
  first_key characters rest = None.
Proof.
  clear mapping_nonempty keys_nonempty.
  induction characters as [|[k v] more IH]; simpl; [done|].
  intros Hall. rewrite (Hall k) by by left.
  apply IH. intros k' Hk'. apply Hall. by right.
Qed.

Lemma single_pass_no_occurrence (string : str) :
  (∀ k, k ∈ characters.*1 → str_contains k string = false) →
  single_pass characters string string.
Proof.
  induction string as [|c string IH]; intros Hall.
  - apply pass_end, first_key_None. intros k Hk.
    specialize (Hall k Hk). simpl in Hall. by apply orb_false_iff in Hall as [? _].
  - apply pass_keep.
    + apply first_key_None. intros k Hk.
      specialize (Hall k Hk). cbn [str_contains] in Hall.
      by apply orb_false_iff in Hall as [? _].
    + apply IH. intros k Hk.
      specialize (Hall k Hk). cbn [str_contains] in Hall.
      by apply orb_false_iff in Hall as [_ ?].
Qed.


Lemma first_key_None_inv (rest k : str) :
  first_key characters rest = None → k ∈ characters.*1 → starts_with k rest = false.
Proof.
  clear mapping_nonempty keys_nonempty.
  induction characters as [|[k' v'] more IH]; simpl.
  - by intros _ ?%elem_of_nil.
  - destruct (starts_with k' rest) eqn:Hk'; [done|].
    intros Hnone [->|Hin]%elem_of_cons; [done | by apply IH].
Qed.

Lemma single_pass_translate (string : str) :
  Forall (λ kv, length kv.1 = 1%nat) characters →
  single_pass characters string (flat_map (translate_char characters) string).
Proof.
  intros Hone. induction string as [|c string IH]; simpl.
  - by apply pass_end, first_key_end.
  - unfold translate_char at 1.
    destruct (first_key characters (c :: string)) as [[k v]|] eqn:Hk.
    + destruct (first_key_Some _ _ _ _ Hk) as (Hstart & Hin & Hget).
      rewrite Forall_forall in Hone. specialize (Hone _ Hin). simpl in Hone.
      destruct k as [|c' [|? ?]]; try done.
      simpl in Hstart. rewrite andb_true_r in Hstart.
      apply bool_decide_eq_true in Hstart as ->.
      rewrite Hget. simpl.
      by apply (pass_replace characters [c] v string).
    + destruct (items_get characters [c]) as [v|] eqn:Hget.
      * apply items_get_Some_elem in Hget.
        assert (starts_with [c] (c :: string) = false) as Hstart.
        { apply (first_key_None_inv _ _ Hk). apply list_elem_of_fmap. by exists ([c], v). }
        simpl in Hstart. by rewrite bool_decide_eq_true_2 in Hstart.
      * simpl. by apply pass_keep.
Qed.


Lemma single_pass_identity (string out : str) :
  Forall (λ kv, kv.2 = kv.1) characters →
  single_pass characters string out → out = string.
Proof.
  intros Hid. rewrite Forall_forall in Hid.
  induction 1 as [Hend|v Hend|k v rest out Hk Hne _ IH|c rest v out Hk _ IH
                 |c rest out Hk _ IH].
  - done.
  - destruct (first_key_Some _ _ _ _ Hend) as (_ & Hin & _). by apply (Hid _ Hin).
  - destruct (first_key_Some _ _ _ _ Hk) as (_ & Hin & _).
    pose proof (Hid _ Hin) as Hv. simpl in Hv. by rewrite Hv, IH.
  - destruct (first_key_Some _ _ _ _ Hk) as (_ & Hin & _).
    pose proof (Hid _ Hin) as Hv. simpl in Hv. by rewrite Hv, IH.
  - by rewrite IH.
Qed.

End multisub_more.

(** A text in which no key occurs is returned unchanged. *)
Theorem multisub_no_occurrence (characters : list (str * str)) (string : str) :
  characters ≠ [] →
  (∀ k, k ∈ characters.*1 → str_contains k string = false) →
  multisub characters string = Some (Ok string).
Proof.
  intros Hne Hall. apply multisub_pass; [done | | by apply single_pass_no_occurrence].
  apply Forall_forall. intros [k v] Hin Hk. simpl in Hk. subst k.
  assert (str_contains [] string = false) as Hcontains.
  { apply Hall. apply list_elem_of_fmap. by exists ([], v). }
  by destruct string.
Qed.

Lemma multisub_no_occurrence_witness :
  multisub [(pystr "a", pystr "1"); (pystr "bc", pystr "2")] (pystr "xbyc")
  = Some (Ok (pystr "xbyc")).
Proof.
  apply (multisub_no_occurrence [(pystr "a", pystr "1"); (pystr "bc", pystr "2")]
           (pystr "xbyc")).
  - discriminate.
  - intros k Hk. simpl in Hk.
    repeat (apply elem_of_cons in Hk as [->|Hk]; [reflexivity|]).
    by apply elem_of_nil in Hk.
Defined.

(** With one-character keys [multisub] works character by character: each
    character that is a key is replaced by its value, the others are
    kept. *)
Theorem multisub_translate (characters : list (str * str)) (string : str) :
  characters ≠ [] →
  Forall (λ kv, length kv.1 = 1%nat) characters →
  multisub characters string
  = Some (Ok (flat_map (translate_char characters) string)).
Proof.
  intros Hne Hone.
  assert (Forall (λ kv : str * str, kv.1 ≠ []) characters) as Hkeys.
  { eapply Forall_impl; [exact Hone|]. intros [k v] Hlen Hk. simpl in *. by subst k. }
  apply multisub_pass; [done | done |]. by apply single_pass_translate.
Qed.

Lemma multisub_translate_witness :
  multisub [(pystr "#", pystr "$"); (pystr "&", pystr "and")] (pystr "a#b&")
  = Some (Ok (flat_map (translate_char [(pystr "#", pystr "$"); (pystr "&", pystr "and")])
                (pystr "a#b&"))).
Proof.
  apply (multisub_translate [(pystr "#", pystr "$"); (pystr "&", pystr "and")]
           (pystr "a#b&")).
  - discriminate.
  - repeat constructor.
Defined.

(** A mapping that sends every key to itself leaves every text unchanged. *)
Theorem multisub_identity (characters : list (str * str)) (string : str) :
  characters ≠ [] →
  Forall (λ kv, kv.1 ≠ []) characters →
  Forall (λ kv, kv.2 = kv.1) characters →
  multisub characters string = Some (Ok string).
Proof.
  intros Hne Hkeys Hid.
  destruct (sub_loop_single_pass characters Hkeys string
              (2 * length string + 2) 0) as (out & Hout & Hpass); [lia..|].
  rewrite drop_0 in Hpass.
  pose proof (single_pass_identity _ _ _ Hid Hpass) as ->. by apply multisub_pass.
Qed.

Lemma multisub_identity_witness :
  multisub [(pystr "ab", pystr "ab"); (pystr "b", pystr "b")] (pystr "abba")
  = Some (Ok (pystr "abba")).
Proof.
  apply (multisub_identity [(pystr "ab", pystr "ab"); (pystr "b", pystr "b")]
           (pystr "abba")).
  - discriminate.
  - repeat constructor; simpl; discriminate.
  - repeat constructor.
Defined.

(** ** cleave, continued *)

Section cleave_more.
Implicit Types (s d pre post : str) (c : ascii).

Lemma str_contains_here d s : starts_with d s = true → str_contains d s = true.
Proof. intros Hd. destruct s; simpl; by rewrite Hd. Qed.

Lemma str_find_from_here d s (pos : Z) :
  starts_with d s = true → str_find_from d s pos = pos.
Proof. intros Hd. destruct s; simpl; by rewrite Hd. Qed.

Lemma str_contains_app d pre post : str_contains d (pre ++ d ++ post) = true.
Proof.
  induction pre as [|c pre IH]; cbn [app].
  - apply str_contains_here, starts_with_app.
  - cbn [str_contains]. rewrite IH. apply orb_true_r.
Qed.

Lemma str_find_from_first d pre post (pos : Z) :
  (∀ j, (j < length pre)%nat → starts_with d (drop j (pre ++ d ++ post)) = false) →
  str_find_from d (pre ++ d ++ post) pos = pos + Z.of_nat (length pre).
Proof.
  revert pos. induction pre as [|c pre IH]; intros pos Hfirst.
  - cbn [app]. rewrite str_find_from_here by apply starts_with_app. simpl. lia.
  - pose proof (Hfirst 0%nat ltac:(simpl; lia)) as H0. rewrite drop_0 in H0.
    cbn [app str_find_from] in *. rewrite H0.
    rewrite IH; [simpl length; lia|].
    intros j Hj. apply (Hfirst (S j)). simpl. lia.
Qed.

Lemma py_slice_from s (a : Z) :
  0 ≤ a → py_slice s (Some a) None = drop (Z.to_nat a) s.
Proof.
  intros Ha. unfold py_slice. simpl. rewrite clamp_index_nonneg by lia.
  destruct (decide (a ≤ Z.of_nat (length s))) as [Hle|Hgt].
  - rewrite Z.min_l by lia. apply take_ge. rewrite length_drop. lia.
  - rewrite Z.min_r by lia. rewrite Nat2Z.id, drop_all, (drop_ge s (Z.to_nat a)) by lia.
    apply take_nil.
Qed.

Lemma cleave_at_occurrence d pre post (anterior : pyval) :
  (∀ j, (j < length pre)%nat → starts_with d (drop j (pre ++ d ++ post)) = false) →
  cleave (pre ++ d ++ post) d anterior
  = if is_True anterior then pre else drop 1 (d ++ post).
Proof.
  intros Hfirst. unfold cleave, str_find.
  rewrite str_contains_app, str_find_from_first by done. rewrite Z.add_0_l.
  destruct (is_True anterior).
  - apply py_slice_before.
  - rewrite py_slice_from by lia.
    replace (Z.to_nat (Z.of_nat (length pre) + 1)) with (length pre + 1)%nat by lia.
    by rewrite <- drop_drop, drop_app_length.
Qed.

(** A delimiter of any length: [cleave] cuts at its first occurrence; with
    the flag [True] it returns what precedes the occurrence, otherwise what
    follows the first character of the occurrence, so that the rest of a
    longer delimiter stays in the result. *)
Theorem cleave_any_delimiter d pre post (anterior : pyval) :
  (∀ j, (j < length pre)%nat → starts_with d (drop j (pre ++ d ++ post)) = false) →
  cleave (pre ++ d ++ post) d anterior
  = if is_True anterior then pre else drop 1 (d ++ post).
Proof. apply cleave_at_occurrence. Qed.

(** The empty delimiter occurs at the start of every text: [cleave] then
    returns the empty text with the flag [True] and drops the first
    character otherwise; the text is never returned unchanged unless it is
    empty. *)
Theorem cleave_empty_delimiter s (anterior : pyval) :
  cleave s [] anterior = if is_True anterior then [] else drop 1 s.
Proof.
  apply (cleave_at_occurrence [] [] s anterior). intros j Hj. simpl in Hj. lia.
Qed.

(** Round trip: when the delimiter character occurs, the part before it,
    the character and the part after it make up the text. *)
Theorem cleave_parts c s :
  c ∈ s →
  cleave s [c] (PyBool true) ++ (c :: cleave s [c] (PyBool false)) = s.
Proof.
  intros Hc. apply list_elem_of_split_l in Hc as (pre & post & -> & Hpre).
  by rewrite !cleave_at_first.
Qed.

(** The part returned with the flag [True] never contains the delimiter
    character, so cleaving it again changes nothing. *)
Theorem cleave_anterior_free c s (anterior : pyval) :
  (c ∉ cleave s [c] (PyBool true)) ∧
  cleave (cleave s [c] (PyBool true)) [c] anterior = cleave s [c] (PyBool true).
Proof.
  assert (Hfree : c ∉ cleave s [c] (PyBool true)).
  { destruct (decide (c ∈ s)) as [Hc|Hc].
    - apply list_elem_of_split_l in Hc as (pre & post & -> & Hpre).
      by rewrite cleave_at_first.
    - by rewrite cleave_absent. }
  split; [done|]. by apply cleave_absent.
Qed.
End cleave_more.

Lemma cleave_any_delimiter_witness :
  cleave (pystr "a::b") (pystr "::") (PyBool false) = pystr ":b".
Proof.
  apply (cleave_any_delimiter (pystr "::") (pystr "a") (pystr "b") (PyBool false)).
  intros j Hj. simpl in Hj. assert (j = 0%nat) as -> by lia. reflexivity.
Defined.

Lemma cleave_parts_witness :
  cleave (pystr "name@gmail.com") [ "@"%char ] (PyBool true)
  ++ ("@"%char :: cleave (pystr "name@gmail.com") [ "@"%char ] (PyBool false))
  = pystr "name@gmail.com".
Proof.
  apply (cleave_parts "@"%char (pystr "name@gmail.com")).
  apply (bool_decide_unpack ("@"%char ∈ pystr "name@gmail.com")).
  vm_compute. exact I.
Defined.
